(** * slou-engine: move generation, legality filtering and perft

    A shallow embedding of [move_generation.h], [game.h] and the parts of
    [main.cpp] that drive them.  The three functions of the generator
    ([pseudolegal_moves], [generate_moves], [generate_attacks]) and
    [Game::perft] are transcribed from the source.  The classes they call
    into ([Board], [Move], [MoveList], the leaper and slider tables, the
    Zobrist hasher) are an interface here ([BoardApi]); a model of that
    interface written from the specification instantiates it. *)

From Stdlib Require Import ZArith Bool Lia String.
From stdpp Require Import base numbers list.

Local Open Scope Z_scope.

(** ** Basic types *)

Inductive Color := white | black.

Definition switchColor (c : Color) : Color :=
  match c with white => black | black => white end.

Inductive PieceType := pawn | knight | bishop | rook | queen | king.

#[export] Instance Color_eq_dec : EqDecision Color.
Proof. solve_decision. Defined.

#[export] Instance PieceType_eq_dec : EqDecision PieceType.
Proof. solve_decision. Defined.

(** [u64]: a 64-bit unsigned integer, carried as a [Z]; arithmetic that can
    leave the range is wrapped with [wrap64]. *)
Definition u64 := Z.

Definition wrap64 (z : Z) : u64 := z mod 2 ^ 64.

(** ** Process-wide state

    [initialized_stuff] is the static flag of [move_generation.h].  The three
    table initialisers are not transcribed; every run of them is recorded in
    [init_calls], in call order.  [cout] records what [perft] prints in its
    per-move reporting mode. *)

Inductive InitCall := initMagics | initLeapers | Zobrist_initialize.

Inductive Output (Move : Type) :=
| out_move (m : Move) (move_nodes : u64)
| out_total (nodes : u64)
| out_text (s : string).

Arguments out_move {Move} m move_nodes.
Arguments out_total {Move} nodes.
Arguments out_text {Move} s.

Record Process (Move : Type) := mkProcess {
  initialized_stuff : bool;
  init_calls : list InitCall;
  cout : list (Output Move)
}.

Arguments mkProcess {Move} _ _ _.
Arguments initialized_stuff {Move} _.
Arguments init_calls {Move} _.
Arguments cout {Move} _.

(** State of a process at start: flag clear, nothing initialised or printed. *)
Definition process_start {Move : Type} : Process Move :=
  mkProcess false [] [].

(** [initializePrecomputedStuff] (move_generation.h:30). *)
Definition initializePrecomputedStuff {Move : Type} (p : Process Move) : Process Move :=
  mkProcess (initialized_stuff p)
            (init_calls p ++ [initMagics; initLeapers; Zobrist_initialize])
            (cout p).

Definition set_initialized_stuff {Move : Type} (v : bool) (p : Process Move) : Process Move :=
  mkProcess v (init_calls p) (cout p).

Definition print {Move : Type} (o : Output Move) (p : Process Move) : Process Move :=
  mkProcess (initialized_stuff p) (init_calls p) (cout p ++ [o]).

(** The guard at the head of [pseudolegal_moves] (move_generation.h:50-53):
    initialise if the flag is clear, then set the flag. *)
Definition guarded_init {Move : Type} (p : Process Move) : Process Move :=
  if negb (initialized_stuff p)
  then set_initialized_stuff true (initializePrecomputedStuff p)
  else p.

(** Number of times [initializePrecomputedStuff] has run. *)
Definition init_runs {Move : Type} (p : Process Move) : nat :=
  length (List.filter (fun c => match c with initMagics => true | _ => false end)
                      (init_calls p)).

(** ** MoveList

    Modelled from the spec: [MoveList] (move.h is not among the sources) is
    "an ordered, bounded sequence of Move" with "append, indexed access, size
    query, and O(1) removal-by-swap-with-last".  The capacity bound is not
    modelled. *)

Definition MoveList (Move : Type) := list Move.

Definition size {Move : Type} (l : MoveList Move) : u64 := Z.of_nat (length l).

(** Modelled from the spec: [MoveList::remove(i)], removal by swap with the
    last entry: the last entry is written over entry [i], then the list
    shrinks by one.  The generator calls it with [i] in range only. *)
Definition remove {Move : Type} (i : nat) (l : MoveList Move) : MoveList Move :=
  match last l with
  | Some x => take (length l - 1) (<[i := x]> l)
  | None => l
  end.

(** ** The interface of the classes that are not transcribed *)

Class BoardApi (Board Move : Type) := {
  (* board.h accessors *)
  getKing : Board -> Color -> u64;
  getPawns : Board -> Color -> u64;
  getKnights : Board -> Color -> u64;
  getBishops : Board -> Color -> u64;
  getRooks : Board -> Color -> u64;
  getQueens : Board -> Color -> u64;
  getOccupancy : Board -> u64;
  isCheck : Board -> Color -> u64 -> bool;
  whiteTurn : Board -> bool;
  (* board.move(m), board.undo(m) *)
  move : Move -> Board -> Board;
  undo : Move -> Board -> Board;
  (* board.move<color>(m), board.undo<color>(m) *)
  move_t : Color -> Move -> Board -> Board;
  undo_t : Color -> Move -> Board -> Board;
  (* leapers/leapers.h *)
  leapers_pawn : Color -> MoveList Move -> Board -> MoveList Move;
  leapers_knight : Color -> MoveList Move -> Board -> MoveList Move;
  leapers_king : Color -> MoveList Move -> Board -> u64 -> MoveList Move;
  generatePawnMask : Color -> u64 -> u64;
  generateKnightMask : u64 -> u64;
  generateKingMask : u64 -> u64;
  (* sliders/sliders.h *)
  sliders_generateMoves : PieceType -> Color -> MoveList Move -> Board -> MoveList Move;
  sliders_getBitboard : PieceType -> u64 -> u64 -> u64
}.

(** ** move_generation.h *)

Section MoveGeneration.
Context {Board Move : Type} `{BoardApi Board Move}.

(** [generate_attacks<color>] (move_generation.h:110). *)
Definition generate_attacks (color : Color) (board : Board) : u64 :=
  let attacks := 0 in
  let occupancy := getOccupancy board in
  let attacks := Z.lor attacks (generatePawnMask color (getPawns board color)) in
  let attacks := Z.lor attacks (generateKnightMask (getKnights board color)) in
  let attacks := Z.lor attacks (generateKingMask (getKing board color)) in
  let attacks := Z.lor attacks (sliders_getBitboard bishop (getBishops board color) occupancy) in
  let attacks := Z.lor attacks (sliders_getBitboard rook (getRooks board color) occupancy) in
  let attacks := Z.lor attacks (sliders_getBitboard queen (getQueens board color) occupancy) in
  attacks.

(** [pseudolegal_moves<color>] (move_generation.h:45).  The list and the
    process state are passed by reference in the source and returned here
    next to the function's value. *)
Definition pseudolegal_moves (color : Color) (move_list : MoveList Move)
           (board : Board) (p : Process Move)
  : u64 * MoveList Move * Process Move :=
  let p := guarded_init p in
  if getKing board color =? 0 then (0, move_list, p)
  else
    let enemy_attacks := generate_attacks (switchColor color) board in
    let move_list := leapers_pawn color move_list board in
    let move_list := leapers_knight color move_list board in
    let move_list := leapers_king color move_list board enemy_attacks in
    let move_list := sliders_generateMoves bishop color move_list board in
    let move_list := sliders_generateMoves rook color move_list board in
    let move_list := sliders_generateMoves queen color move_list board in
    (size move_list, move_list, p).

(** The list [pseudolegal_moves] leaves behind when it is given an empty
    one: the pseudolegal moves of [color]. *)
Definition pseudolegal (color : Color) (board : Board) : MoveList Move :=
  (pseudolegal_moves color [] board process_start).1.2.

(** The test of the legality filter (move_generation.h:85-89): after [m] is
    applied, the king of [color] is inside the enemy's attack set. *)
Definition leaves_in_check (color : Color) (board : Board) (m : Move) : bool :=
  let board := move m board in
  let enemy_attacks := generate_attacks (switchColor color) board in
  isCheck board color enemy_attacks.

(** The loop of [generate_moves] (move_generation.h:84-97), started at
    index [i].  Every iteration uses one unit of [fuel]; [None] is a loop
    that has not finished within [fuel] iterations, or an access outside
    the list. *)
Fixpoint filter_loop (fuel : nat) (color : Color) (i : nat)
         (move_list : MoveList Move) (board : Board)
  : option (MoveList Move * Board) :=
  if (i <? length move_list)%nat then
    match fuel with
    | O => None
    | S fuel' =>
        match move_list !! i with
        | None => None
        | Some m =>
            let board := move m board in
            let enemy_attacks := generate_attacks (switchColor color) board in
            if isCheck board color enemy_attacks then
              let board := undo m board in
              let move_list := remove i move_list in
              filter_loop fuel' color i move_list board
            else
              let board := undo m board in
              filter_loop fuel' color (S i) move_list board
        end
    end
  else Some (move_list, board).

(** [generate_moves<color>] (move_generation.h:73).  The loop runs at most
    once per entry of the list, so [length move_list] iterations are given
    to it. *)
Definition generate_moves (color : Color) (move_list : MoveList Move)
           (board : Board) (p : Process Move)
  : option (u64 * MoveList Move * Board * Process Move) :=
  let '(_, move_list, p) := pseudolegal_moves color move_list board p in
  if size move_list =? 0 then Some (0, move_list, board, p)
  else
    match filter_loop (length move_list) color 0 move_list board with
    | None => None
    | Some (move_list, board) => Some (size move_list, move_list, board, p)
    end.

End MoveGeneration.

(** ** game.h *)

Section Game.
Context {Board Move : Type} `{BoardApi Board Move}.

(** A range-for over a move list whose body threads a state and may fail. *)
Fixpoint for_each {St : Type} (body : Move -> St -> option St)
         (l : list Move) (s : St) : option St :=
  match l with
  | [] => Some s
  | m :: l' =>
      match body m s with
      | None => None
      | Some s' => for_each body l' s'
      end
  end.

(** The body of the loop of [Game::perft] (game.h:46-57); [rec] is the
    recursive call [perft<switchColor(color)>(board, depth - 1)]. *)
Definition perft_body (rec : Board -> Process Move -> option (u64 * Board * Process Move))
           (color : Color) (print_moves : bool) (m : Move)
           (s : u64 * Board * Process Move)
  : option (u64 * Board * Process Move) :=
  let '(nodes, board, p) := s in
  let board := move_t color m board in
  match rec board p with
  | None => None
  | Some (move_nodes, board, p) =>
      let nodes := wrap64 (nodes + move_nodes) in
      let p := if print_moves then print (out_move m move_nodes) p else p in
      let board := undo_t color m board in
      Some (nodes, board, p)
  end.

(** The body of [Game::perft<color, print_moves>] (game.h:35-64); [rec]
    stands for the function itself in the two recursive calls, which are
    both made with [print_moves] at its default, false. *)
Definition perft_call
           (rec : Color -> Board -> Z -> Process Move -> option (u64 * Board * Process Move))
           (color : Color) (print_moves : bool)
           (board : Board) (depth : Z) (p : Process Move)
  : option (u64 * Board * Process Move) :=
  let list : MoveList Move := [] in
  let nodes := 0 in
  match generate_moves color list board p with
  | None => None
  | Some (_, list, board, p) =>
      if depth <=? 1 then Some (size list, board, p)
      else
        match for_each
                (perft_body (fun board p => rec (switchColor color) board (depth - 1) p)
                            color print_moves)
                list (nodes, board, p) with
        | None => None
        | Some (nodes, board, p) =>
            let p := if print_moves then print (out_total nodes) p else p in
            Some (nodes, board, p)
        end
  end.

(** [Game::perft].  Every call uses one unit of [fuel]; [None] is a recursion
    deeper than [fuel]. *)
Fixpoint perft (fuel : nat) (color : Color) (print_moves : bool)
         (board : Board) (depth : Z) (p : Process Move)
  : option (u64 * Board * Process Move) :=
  match fuel with
  | O => None
  | S fuel' =>
      perft_call (fun color board depth p => perft fuel' color false board depth p)
                 color print_moves board depth p
  end.

(** The recursion depth of [perft] at [depth]: one call per level down to
    level 1, and one call for any [depth <= 1]. *)
Definition perft_fuel (depth : Z) : nat := Z.to_nat (Z.max depth 1).

(** [subtree color board depth m k]: the recursive call that [perft] makes
    at [depth] for the move [m] of [board] (game.h:50) returns the count [k]
    and the position it was given, in whatever process state it is made.
    [sum_counts] adds up such counts. *)
Definition subtree (color : Color) (board : Board) (depth : Z) (m : Move) (k : u64) : Prop :=
  forall q : Process Move,
  exists q',
    perft (perft_fuel (depth - 1)) (switchColor color) false (move_t color m board)
          (depth - 1) q
    = Some (k, move_t color m board, q').

Definition sum_counts (counts : list u64) : Z := foldr Z.add 0 counts.

(** Modelled from the spec: [Game::perftSimpleEntry] and
    [Game::perftDetailEntry] (game.cpp is not among the sources) are the
    "perft(depth) -> node count and a detailed/divide variant that also
    emits per-root-move counts": [perft] for the side to move, without and
    with [print_moves]. *)
Definition perftSimpleEntry (board : Board) (depth : Z) (p : Process Move)
  : option (u64 * Board * Process Move) :=
  perft (perft_fuel depth) (if whiteTurn board then white else black) false board depth p.

Definition perftDetailEntry (board : Board) (depth : Z) (p : Process Move)
  : option (u64 * Board * Process Move) :=
  perft (perft_fuel depth) (if whiteTurn board then white else black) true board depth p.

End Game.

(** ** main.cpp *)

(** What [main] uses from the standard library and from the front end that is
    not transcribed: [None] stands for a thrown exception. *)
Class FrontEnd (Board Move : Type) := {
  stoi : string -> option Z;
  stoull : string -> option Z;
  Game_fen : string -> option Board;
  PerftTestSuite_runTests : Process Move -> Process Move;
  CommandManager_parseCommand : Process Move -> Process Move
}.

Section Main.
Context {Board Move : Type} `{BoardApi Board Move} `{FrontEnd Board Move}.

Definition arg (args : list string) (i : nat) : string := nth i args EmptyString.

(** [perft_test] (main.cpp:116). *)
Definition perft_test (args : list string) (p : Process Move) : option (Process Move) :=
  if ((length args <? 4) || (5 <? length args))%nat
  then Some (print (out_text "usage") p)
  else
    match stoi (arg args 2) with
    | None => Some (print (out_text "'depth' must be a number!") p)
    | Some depth =>
        match Game_fen (arg args 3) with
        | None => Some (print (out_text "usage") p)
        | Some board =>
            match perftSimpleEntry board depth p with
            | None => None
            | Some (perft_result, _, p) =>
                if (length args =? 4)%nat then Some (print (out_total perft_result) p)
                else
                  match stoull (arg args 4) with
                  | None => Some (print (out_text "'expected' must be a number!") p)
                  | Some expected =>
                      if perft_result =? expected
                      then Some (print (out_total perft_result) (print (out_text "passed: ") p))
                      else Some (print (out_total perft_result) (print (out_text "failed: ") p))
                  end
            end
        end
    end.

(** [detailed_perft_test] (main.cpp:85). *)
Definition detailed_perft_test (args : list string) (p : Process Move)
  : option (Process Move) :=
  if negb (length args =? 4)%nat
  then Some (print (out_text "usage") p)
  else
    match stoi (arg args 2) with
    | None => Some (print (out_text "'depth' must be a number!") p)
    | Some depth =>
        match Game_fen (arg args 3) with
        | None => Some (print (out_text "usage") p)
        | Some board =>
            match perftDetailEntry board depth p with
            | None => None
            | Some (_, _, p) => Some p
            end
        end
    end.

(** [speed_test] (main.cpp:176); the clock readings are left out. *)
Definition speed_test (args : list string) (p : Process Move) : option (Process Move) :=
  if negb (length args =? 4)%nat
  then Some (print (out_text "usage") p)
  else
    match stoi (arg args 2) with
    | None => Some (print (out_text "'depth' must be a number!") p)
    | Some depth =>
        match Game_fen (arg args 3) with
        | None => Some (print (out_text "usage") p)
        | Some board =>
            match perftSimpleEntry board depth p with
            | None => None
            | Some (perft_result, _, p) => Some (print (out_total perft_result) p)
            end
        end
    end.

(** [uci_interface] (main.cpp:66). *)
Definition uci_interface (p : Process Move) : Process Move :=
  CommandManager_parseCommand (print (out_text "A chess egine by ama - 2024") p).

(** [main] (main.cpp:26); [args] is [argv], program name first. *)
Definition main (args : list string) (p : Process Move) : option (Z * Process Move) :=
  let p := initializePrecomputedStuff p in
  let r :=
    if (1 <? length args)%nat then
      if String.eqb (arg args 1) "-test" then Some (PerftTestSuite_runTests p)
      else if String.eqb (arg args 1) "-perft" then perft_test args p
      else if String.eqb (arg args 1) "-speed" then speed_test args p
      else if String.eqb (arg args 1) "-perftd" then detailed_perft_test args p
      else Some (print (out_text "Usage:") p)
    else Some (uci_interface p) in
  match r with
  | None => None
  | Some p => Some (0, p)
  end.

End Main.

(** * The board, the moves and the tables

    None of board.h, move.h, leapers.h, sliders.h and zobrist.h is among the
    sources.  Everything in [Chess] is written from the specification's
    description of them (sections 3 and 4), with the rules of chess where the
    specification only names them. *)

Module Chess.

(** ** Bitboards

    Squares are numbered 0 to 63, rank-major from a1: square = 8 * rank +
    file, so a1 = 0, h1 = 7, a8 = 56, h8 = 63. *)

Definition mask64 : u64 := 0xFFFFFFFFFFFFFFFF.

(** [1ULL << s].  The 64 squares of the board are tabulated. *)
Definition bit (s : Z) : u64 :=
  match s with
  | 0 => 0x1 | 1 => 0x2 | 2 => 0x4 | 3 => 0x8
  | 4 => 0x10 | 5 => 0x20 | 6 => 0x40 | 7 => 0x80
  | 8 => 0x100 | 9 => 0x200 | 10 => 0x400 | 11 => 0x800
  | 12 => 0x1000 | 13 => 0x2000 | 14 => 0x4000 | 15 => 0x8000
  | 16 => 0x10000 | 17 => 0x20000 | 18 => 0x40000 | 19 => 0x80000
  | 20 => 0x100000 | 21 => 0x200000 | 22 => 0x400000 | 23 => 0x800000
  | 24 => 0x1000000 | 25 => 0x2000000 | 26 => 0x4000000 | 27 => 0x8000000
  | 28 => 0x10000000 | 29 => 0x20000000 | 30 => 0x40000000 | 31 => 0x80000000
  | 32 => 0x100000000 | 33 => 0x200000000 | 34 => 0x400000000 | 35 => 0x800000000
  | 36 => 0x1000000000 | 37 => 0x2000000000 | 38 => 0x4000000000 | 39 => 0x8000000000
  | 40 => 0x10000000000 | 41 => 0x20000000000 | 42 => 0x40000000000 | 43 => 0x80000000000
  | 44 => 0x100000000000 | 45 => 0x200000000000 | 46 => 0x400000000000 | 47 => 0x800000000000
  | 48 => 0x1000000000000 | 49 => 0x2000000000000 | 50 => 0x4000000000000 | 51 => 0x8000000000000
  | 52 => 0x10000000000000 | 53 => 0x20000000000000 | 54 => 0x40000000000000 | 55 => 0x80000000000000
  | 56 => 0x100000000000000 | 57 => 0x200000000000000 | 58 => 0x400000000000000 | 59 => 0x800000000000000
  | 60 => 0x1000000000000000 | 61 => 0x2000000000000000 | 62 => 0x4000000000000000 | 63 => 0x8000000000000000
  | _ => Z.shiftl 1 s
  end.
Definition set_bit (bb : u64) (s : Z) : u64 := Z.lor bb (bit s).
Definition clear_bit (bb : u64) (s : Z) : u64 := Z.ldiff bb (bit s).

(** The squares of a bitboard, lowest first (the order in which a loop
    that pops the least significant bit visits them). *)
Fixpoint squares_pos (p : positive) (s : Z) : list Z :=
  match p with
  | xH => [s]
  | xO q => squares_pos q (s + 1)
  | xI q => s :: squares_pos q (s + 1)
  end.

Definition squares (bb : u64) : list Z :=
  match bb with
  | Zpos p => squares_pos p 0
  | _ => []
  end.

(** ** Moves *)

Inductive MoveTag := tag_none | double_push | en_passant | castle_king | castle_queen.

(** Modelled from the spec: [Move] is "origin square, destination square,
    moving piece type, optional captured piece type, optional promotion
    piece type, and a special-move tag". *)
Record Move := mkMove {
  from : Z;
  to : Z;
  piece : PieceType;
  captured : option PieceType;
  promotion : option PieceType;
  tag : MoveTag
}.

(** ** The board *)

Record Pieces := mkPieces {
  pawns : u64;
  knights : u64;
  bishops : u64;
  rooks : u64;
  queens : u64;
  kings : u64
}.

(** The undo record of one applied move: "the captured piece (if any),
    prior castling rights, prior en-passant target, and prior halfmove
    clock". *)
Record UndoRecord := mkUndoRecord {
  u_captured : option PieceType;
  u_castling : Z;
  u_en_passant : option Z;
  u_halfmove : Z
}.

(** Modelled from the spec: [Board] holds "six bitboards per color", "side
    to move, castling-rights flags (4 bits), en-passant target square
    (optional), halfmove clock, fullmove number, running Zobrist key, and
    an undo history stack". *)
Record Board := mkBoard {
  white_pieces : Pieces;
  black_pieces : Pieces;
  white_turn : bool;
  castling : Z;
  en_passant_target : option Z;
  halfmove : Z;
  fullmove : Z;
  key : u64;
  history : list UndoRecord
}.

Definition bb (ps : Pieces) (pt : PieceType) : u64 :=
  match pt with
  | pawn => pawns ps
  | knight => knights ps
  | bishop => bishops ps
  | rook => rooks ps
  | queen => queens ps
  | king => kings ps
  end.

Definition upd (pt : PieceType) (f : u64 -> u64) (ps : Pieces) : Pieces :=
  match pt with
  | pawn => mkPieces (f (pawns ps)) (knights ps) (bishops ps) (rooks ps) (queens ps) (kings ps)
  | knight => mkPieces (pawns ps) (f (knights ps)) (bishops ps) (rooks ps) (queens ps) (kings ps)
  | bishop => mkPieces (pawns ps) (knights ps) (f (bishops ps)) (rooks ps) (queens ps) (kings ps)
  | rook => mkPieces (pawns ps) (knights ps) (bishops ps) (f (rooks ps)) (queens ps) (kings ps)
  | queen => mkPieces (pawns ps) (knights ps) (bishops ps) (rooks ps) (f (queens ps)) (kings ps)
  | king => mkPieces (pawns ps) (knights ps) (bishops ps) (rooks ps) (queens ps) (f (kings ps))
  end.

Definition pieces (c : Color) (b : Board) : Pieces :=
  match c with white => white_pieces b | black => black_pieces b end.

Definition occupancy_of (ps : Pieces) : u64 :=
  Z.lor (pawns ps) (Z.lor (knights ps) (Z.lor (bishops ps)
        (Z.lor (rooks ps) (Z.lor (queens ps) (kings ps))))).

Definition occupancy (b : Board) : u64 :=
  Z.lor (occupancy_of (white_pieces b)) (occupancy_of (black_pieces b)).

Definition side (b : Board) : Color := if white_turn b then white else black.

(** The piece type standing on square [s] among [ps], if any. *)
Definition piece_on (ps : Pieces) (s : Z) : option PieceType :=
  if Z.testbit (pawns ps) s then Some pawn
  else if Z.testbit (knights ps) s then Some knight
  else if Z.testbit (bishops ps) s then Some bishop
  else if Z.testbit (rooks ps) s then Some rook
  else if Z.testbit (queens ps) s then Some queen
  else if Z.testbit (kings ps) s then Some king
  else None.

(** Modelled from the spec: [Board::isCheck(color, attacks)] "tests king-bit
    intersection". *)
Definition is_check (b : Board) (c : Color) (attacks : u64) : bool :=
  negb (Z.land (kings (pieces c b)) attacks =? 0).

(** ** Leaper attack masks

    Modelled from the spec: [leapers::generatePawnMask], [generateKnightMask]
    and [generateKingMask] (leapers.h is not among the sources) give the
    attack sets of all pawns, knights or kings of a bitboard at once.  They
    are computed by shifting; the complement of a file drops what a shift
    carries over the board edge, and the bits above the 64th with it. *)

Definition NOT_A : u64 := 0xFEFEFEFEFEFEFEFE.
Definition NOT_H : u64 := 0x7F7F7F7F7F7F7F7F.
Definition NOT_AB : u64 := 0xFCFCFCFCFCFCFCFC.
Definition NOT_GH : u64 := 0x3F3F3F3F3F3F3F3F.

Definition shl (x : u64) (n : Z) : u64 := Z.land (Z.shiftl x n) mask64.
Definition shr (x : u64) (n : Z) : u64 := Z.shiftr x n.

Definition pawn_mask (c : Color) (p : u64) : u64 :=
  match c with
  | white => Z.lor (Z.land (Z.shiftl p 9) NOT_A) (Z.land (Z.shiftl p 7) NOT_H)
  | black => Z.lor (Z.land (Z.shiftr p 7) NOT_A) (Z.land (Z.shiftr p 9) NOT_H)
  end.

Definition knight_mask (n : u64) : u64 :=
  let l1 := Z.land (Z.shiftr n 1) NOT_H in
  let l2 := Z.land (Z.shiftr n 2) NOT_GH in
  let r1 := Z.land (Z.shiftl n 1) NOT_A in
  let r2 := Z.land (Z.shiftl n 2) NOT_AB in
  let h1 := Z.lor l1 r1 in
  let h2 := Z.lor l2 r2 in
  Z.lor (Z.lor (shl h1 16) (shr h1 16)) (Z.lor (shl h2 8) (shr h2 8)).

Definition king_mask (k : u64) : u64 :=
  let sides := Z.lor (Z.land (Z.shiftl k 1) NOT_A) (Z.land (Z.shiftr k 1) NOT_H) in
  let row := Z.lor k sides in
  Z.lor sides (Z.lor (shl row 8) (shr row 8)).

(** The per-square tables: "knightAttacks(square)", "kingAttacks(square)",
    "pawnAttacks(color, square)". *)
Definition pawnAttacks (c : Color) (s : Z) : u64 := pawn_mask c (bit s).
Definition knightAttacks (s : Z) : u64 := knight_mask (bit s).
Definition kingAttacks (s : Z) : u64 := king_mask (bit s).

(** ** Slider attacks

    Modelled from the spec: the magic tables (sliders.h is not among the
    sources) store, for every square and every occupancy, "the true
    ray-traced attack set (stopping at the first occupied square in each
    direction, including it)"; a lookup is modelled by tracing the rays. *)

Inductive Direction := north | south | east | west | north_east | north_west | south_east | south_west.

(** One step from square [s] in a direction; [None] when the step leaves
    the board. *)
Definition step (d : Direction) (s : Z) : option Z :=
  let file := Z.land s 7 in
  match d with
  | north => if s <? 56 then Some (s + 8) else None
  | south => if 8 <=? s then Some (s - 8) else None
  | east => if file <? 7 then Some (s + 1) else None
  | west => if 0 <? file then Some (s - 1) else None
  | north_east => if (s <? 56) && (file <? 7) then Some (s + 9) else None
  | north_west => if (s <? 56) && (0 <? file) then Some (s + 7) else None
  | south_east => if (8 <=? s) && (file <? 7) then Some (s - 7) else None
  | south_west => if (8 <=? s) && (0 <? file) then Some (s - 9) else None
  end.

(** The ray from [s] in direction [d]: every square up to and including the
    first occupied one, added to [acc].  A ray has at most 7 squares. *)
Fixpoint ray (n : nat) (d : Direction) (s : Z) (occ acc : u64) : u64 :=
  match n with
  | O => acc
  | S n' =>
      match step d s with
      | None => acc
      | Some s' =>
          let acc := set_bit acc s' in
          if Z.testbit occ s' then acc else ray n' d s' occ acc
      end
  end.

Definition rays (ds : list Direction) (s : Z) (occ : u64) : u64 :=
  fold_left (fun acc d => ray 7 d s occ acc) ds 0.

Definition bishopAttacks (s : Z) (occ : u64) : u64 :=
  rays [north_east; north_west; south_east; south_west] s occ.

Definition rookAttacks (s : Z) (occ : u64) : u64 :=
  rays [north; south; east; west] s occ.

(** "Queen attacks = bishop attacks ∪ rook attacks at the same
    square/occupancy." *)
Definition sliderAttacks (pt : PieceType) (s : Z) (occ : u64) : u64 :=
  match pt with
  | bishop => bishopAttacks s occ
  | rook => rookAttacks s occ
  | queen => Z.lor (bishopAttacks s occ) (rookAttacks s occ)
  | _ => 0
  end.

(** Modelled from the spec: [sliders::getBitboard<pt>(pieces, occupancy)],
    the union of the attack sets of every piece of the bitboard. *)
Definition slider_mask (pt : PieceType) (ps occ : u64) : u64 :=
  fold_left (fun acc s => Z.lor acc (sliderAttacks pt s occ)) (squares ps) 0.

(** ** Pseudolegal moves of one piece kind *)

Definition base (c : Color) : Z := match c with white => 0 | black => 56 end.
Definition forward (c : Color) (s : Z) : Z := match c with white => s + 8 | black => s - 8 end.
Definition on_board (s : Z) : bool := (0 <=? s) && (s <? 64).
Definition last_rank (c : Color) (s : Z) : bool :=
  match c with white => 56 <=? s | black => s <? 8 end.
Definition start_rank (c : Color) (s : Z) : bool :=
  match c with white => (8 <=? s) && (s <? 16) | black => (48 <=? s) && (s <? 56) end.

(** Castling rights: bit 0 white king side, bit 1 white queen side, bit 2
    black king side, bit 3 black queen side. *)
Definition right_k (c : Color) : Z := match c with white => 0 | black => 2 end.
Definition right_q (c : Color) : Z := match c with white => 1 | black => 3 end.

(** Modelled from the spec: the moves of a piece of kind [pt] from [from] to
    every square of [targets]; what stands on the target among [enemy] is
    captured. *)
Definition moves_to (pt : PieceType) (enemy : Pieces) (from : Z) (targets : u64) : list Move :=
  List.map (fun to => mkMove from to pt (piece_on enemy to) None tag_none) (squares targets).

Definition piece_moves (pt : PieceType) (attacks : Z -> u64) (c : Color) (b : Board)
  : list Move :=
  let own := occupancy_of (pieces c b) in
  let enemy := pieces (switchColor c) b in
  flat_map (fun from => moves_to pt enemy from (Z.ldiff (attacks from) own))
           (squares (bb (pieces c b) pt)).

Definition promotions : list PieceType := [queen; rook; bishop; knight].

(** A pawn arriving on [to]: a promotion to each of the four pieces on the
    last rank, an ordinary move elsewhere. *)
Definition pawn_arrivals (c : Color) (from to : Z) (cap : option PieceType) : list Move :=
  if last_rank c to
  then List.map (fun pr => mkMove from to pawn cap (Some pr) tag_none) promotions
  else [mkMove from to pawn cap None tag_none].

(** Modelled from the spec: [leapers::pawn], the "pawn
    pushes/captures/promotions/en-passant" of the pawn on [from], by the
    rules of chess. *)
Definition pawn_moves_from (c : Color) (b : Board) (from : Z) : list Move :=
  let occ := occupancy b in
  let enemy := pieces (switchColor c) b in
  let up := forward c from in
  let pushes :=
    if on_board up && negb (Z.testbit occ up) then
      pawn_arrivals c from up None ++
      (if start_rank c from && negb (Z.testbit occ (forward c up))
       then [mkMove from (forward c up) pawn None None double_push]
       else [])
    else [] in
  let captures :=
    flat_map (fun to => pawn_arrivals c from to (piece_on enemy to))
             (squares (Z.land (pawnAttacks c from) (occupancy_of enemy))) in
  let ep :=
    match en_passant_target b with
    | Some s =>
        if Z.testbit (pawnAttacks c from) s
        then [mkMove from s pawn (Some pawn) None en_passant]
        else []
    | None => []
    end in
  pushes ++ captures ++ ep.

Definition pawn_moves (c : Color) (b : Board) : list Move :=
  flat_map (pawn_moves_from c b) (squares (pawns (pieces c b))).

(** Modelled from the spec: castling, which the specification names as a
    move tag and leaves to the king's generator.  By the rules of chess the
    right is held, the squares between king and rook are empty, and the
    king's square and the two squares it crosses are not attacked. *)
Definition castling_moves (c : Color) (b : Board) (enemy_attacks : u64) : list Move :=
  let occ := occupancy b in
  let r := base c in
  (if Z.testbit (castling b) (right_k c)
      && (Z.land occ (Z.shiftl 0x60 r) =? 0)
      && (Z.land enemy_attacks (Z.shiftl 0x70 r) =? 0)
   then [mkMove (r + 4) (r + 6) king None None castle_king] else [])
  ++
  (if Z.testbit (castling b) (right_q c)
      && (Z.land occ (Z.shiftl 0x0E r) =? 0)
      && (Z.land enemy_attacks (Z.shiftl 0x1C r) =? 0)
   then [mkMove (r + 4) (r + 2) king None None castle_queen] else []).

(** Modelled from the spec: [leapers::king], "king moves (excluding squares
    attacked by the enemy ...)". *)
Definition king_moves (c : Color) (b : Board) (enemy_attacks : u64) : list Move :=
  piece_moves king (fun s => Z.ldiff (kingAttacks s) enemy_attacks) c b
  ++ castling_moves c b enemy_attacks.

(** ** Zobrist keys

    Modelled from the spec: the tables of zobrist.h hold "independent random
    64-bit keys"; their values are not fixed by the specification, so the
    board is generic in them. *)
Class ZobristKeys := {
  piece_key : Color -> PieceType -> Z -> u64;
  castling_key : Z -> u64;
  en_passant_key : Z -> u64;
  side_key : u64
}.

Section Mutation.
Context `{ZobristKeys}.

Definition ep_key (t : option Z) : u64 :=
  match t with Some s => en_passant_key (Z.land s 7) | None => 0 end.

Definition landing (m : Move) : PieceType :=
  match promotion m with Some pr => pr | None => piece m end.

(** The square the captured piece stands on: the destination, except for
    an en-passant capture, where it is the square behind it. *)
Definition capture_square (c : Color) (m : Move) : Z :=
  match tag m with
  | en_passant => forward (switchColor c) (to m)
  | _ => to m
  end.

Definition castle_rook (c : Color) (m : Move) : option (Z * Z) :=
  match tag m with
  | castle_king => Some (base c + 7, base c + 5)
  | castle_queen => Some (base c, base c + 3)
  | _ => None
  end.

(** "castling rights (lost when king or rook moves or is captured)". *)
Definition rights_after (c : Color) (m : Move) (r : Z) : Z :=
  let e := switchColor c in
  let r :=
    match piece m with
    | king => clear_bit (clear_bit r (right_k c)) (right_q c)
    | rook =>
        if from m =? base c + 7 then clear_bit r (right_k c)
        else if from m =? base c then clear_bit r (right_q c)
        else r
    | _ => r
    end in
  match captured m with
  | Some king => clear_bit (clear_bit r (right_k e)) (right_q e)
  | Some rook =>
      if to m =? base e + 7 then clear_bit r (right_k e)
      else if to m =? base e then clear_bit r (right_q e)
      else r
  | _ => r
  end.

(** The keys a move toggles: "moved piece leaving origin, arriving at
    destination or promotion square, captured piece removed, castling
    rook relocated, en-passant file changed, side-to-move flipped", and
    the castling-rights key. *)
Definition key_delta (c : Color) (m : Move) (cap : option PieceType)
           (rights rights' : Z) (ep ep' : option Z) : u64 :=
  let k := Z.lxor (piece_key c (piece m) (from m)) (piece_key c (landing m) (to m)) in
  let k := match cap with
           | Some cp => Z.lxor k (piece_key (switchColor c) cp (capture_square c m))
           | None => k
           end in
  let k := match castle_rook c m with
           | Some (rf, rt) => Z.lxor k (Z.lxor (piece_key c rook rf) (piece_key c rook rt))
           | None => k
           end in
  let k := Z.lxor k (Z.lxor (castling_key rights) (castling_key rights')) in
  let k := Z.lxor k (Z.lxor (ep_key ep) (ep_key ep')) in
  Z.lxor k side_key.

Definition with_pieces (c : Color) (own enemy : Pieces) (b : Board) : Board :=
  match c with
  | white => mkBoard own enemy (white_turn b) (castling b) (en_passant_target b)
                     (halfmove b) (fullmove b) (key b) (history b)
  | black => mkBoard enemy own (white_turn b) (castling b) (en_passant_target b)
                     (halfmove b) (fullmove b) (key b) (history b)
  end.

(** The mover's bitboards after the move: "clear origin bit, set
    destination bit, or set promotion-piece bit instead of mover's own
    type", and "relocates the rook on castling moves". *)
Definition place_mover (c : Color) (m : Move) (own : Pieces) : Pieces :=
  let own := upd (piece m) (fun x => clear_bit x (from m)) own in
  let own := upd (landing m) (fun x => set_bit x (to m)) own in
  match castle_rook c m with
  | Some (rf, rt) => upd rook (fun x => set_bit (clear_bit x rf) rt) own
  | None => own
  end.

(** The other side's bitboards: "clears the captured piece's bitboard entry
    if any". *)
Definition remove_captured (c : Color) (m : Move) (cap : option PieceType)
           (enemy : Pieces) : Pieces :=
  match cap with
  | Some cp => upd cp (fun x => clear_bit x (capture_square c m)) enemy
  | None => enemy
  end.

(** Their inverses, in the reverse order. *)
Definition unplace_mover (c : Color) (m : Move) (own : Pieces) : Pieces :=
  let own := match castle_rook c m with
             | Some (rf, rt) => upd rook (fun x => set_bit (clear_bit x rt) rf) own
             | None => own
             end in
  let own := upd (landing m) (fun x => clear_bit x (to m)) own in
  upd (piece m) (fun x => set_bit x (from m)) own.

Definition restore_captured (c : Color) (m : Move) (cap : option PieceType)
           (enemy : Pieces) : Pieces :=
  match cap with
  | Some cp => upd cp (fun x => set_bit x (capture_square c m)) enemy
  | None => enemy
  end.

(** Modelled from the spec: [Board::move<color>(m)] (section 4.4). *)
Definition move_c (c : Color) (m : Move) (b : Board) : Board :=
  let e := switchColor c in
  let own := place_mover c m (pieces c b) in
  let enemy := remove_captured c m (captured m) (pieces e b) in
  let rights := rights_after c m (castling b) in
  let ep := match tag m with
            | double_push => Some (forward c (from m))
            | _ => None
            end in
  let hm := match piece m, captured m with
            | pawn, _ => 0
            | _, Some _ => 0
            | _, None => halfmove b + 1
            end in
  let fm := match c with white => fullmove b | black => fullmove b + 1 end in
  let k := Z.lxor (key b)
                  (key_delta c m (captured m) (castling b) rights (en_passant_target b) ep) in
  let u := mkUndoRecord (captured m) (castling b) (en_passant_target b) (halfmove b) in
  with_pieces c own enemy
    (mkBoard (white_pieces b) (black_pieces b) (negb (white_turn b)) rights ep hm fm k
             (u :: history b)).

(** Modelled from the spec: [Board::undo<color>(m)]: "pops the undo record
    and exactly reverses every field".  With an empty history (no move to
    undo, a precondition violation) the board is left as it is. *)
Definition undo_c (c : Color) (m : Move) (b : Board) : Board :=
  match history b with
  | [] => b
  | u :: h =>
      let e := switchColor c in
      let own := unplace_mover c m (pieces c b) in
      let enemy := restore_captured c m (u_captured u) (pieces e b) in
      let fm := match c with white => fullmove b | black => fullmove b - 1 end in
      let k := Z.lxor (key b)
                      (key_delta c m (u_captured u) (u_castling u) (castling b)
                                 (u_en_passant u) (en_passant_target b)) in
      with_pieces c own enemy
        (mkBoard (white_pieces b) (black_pieces b) (negb (white_turn b)) (u_castling u)
                 (u_en_passant u) (u_halfmove u) fm k h)
  end.

(** Modelled from the spec: [Board::move(m)] and [Board::undo(m)] without
    a colour: the mover is the side to move, and on undo the side that is
    not to move. *)
Definition move_m (m : Move) (b : Board) : Board := move_c (side b) m b.
Definition undo_m (m : Move) (b : Board) : Board := undo_c (switchColor (side b)) m b.

(** "keyFor(board) computes from scratch". *)
Definition pieces_key (c : Color) (ps : Pieces) : u64 :=
  fold_left
    (fun k pt => fold_left (fun k s => Z.lxor k (piece_key c pt s)) (squares (bb ps pt)) k)
    [pawn; knight; bishop; rook; queen; king] 0.

Definition keyFor (b : Board) : u64 :=
  Z.lxor (pieces_key white (white_pieces b))
    (Z.lxor (pieces_key black (black_pieces b))
       (Z.lxor (castling_key (castling b))
          (Z.lxor (ep_key (en_passant_target b))
             (if white_turn b then 0 else side_key)))).

(** Modelled from the spec: the board, the leaper and slider generators
    ("then append: ...") and the attack masks, as the instance of the
    interface [generate_moves] and [perft] are written against. *)
#[export] Instance api : BoardApi Board Move := {|
  getKing b c := kings (pieces c b);
  getPawns b c := pawns (pieces c b);
  getKnights b c := knights (pieces c b);
  getBishops b c := bishops (pieces c b);
  getRooks b c := rooks (pieces c b);
  getQueens b c := queens (pieces c b);
  getOccupancy := occupancy;
  isCheck := is_check;
  whiteTurn := white_turn;
  move := move_m;
  undo := undo_m;
  move_t := move_c;
  undo_t := undo_c;
  leapers_pawn c ml b := ml ++ pawn_moves c b;
  leapers_knight c ml b := ml ++ piece_moves knight knightAttacks c b;
  leapers_king c ml b enemy_attacks := ml ++ king_moves c b enemy_attacks;
  generatePawnMask := pawn_mask;
  generateKnightMask := knight_mask;
  generateKingMask := king_mask;
  sliders_generateMoves pt c ml b :=
    ml ++ piece_moves pt (fun s => sliderAttacks pt s (occupancy b)) c b;
  sliders_getBitboard := slider_mask
|}.

(** The standard starting position. *)
Definition startpos_pieces : Board :=
  mkBoard (mkPieces 0xFF00 0x42 0x24 0x81 0x08 0x10)
          (mkPieces 0x00FF000000000000 0x4200000000000000 0x2400000000000000
                    0x8100000000000000 0x0800000000000000 0x1000000000000000)
          true 15 None 0 1 0 [].

Definition startpos : Board :=
  mkBoard (white_pieces startpos_pieces) (black_pieces startpos_pieces)
          true 15 None 0 1 (keyFor startpos_pieces) [].

End Mutation.

(** ** Well-formed positions

    What holds of every position set up from a valid description and is kept
    by every move of the generator: a square holds at most one piece; an
    en-passant target is an empty square behind a pawn of the side that has
    just moved; a castling right is held only while king and rook stand on
    their home squares. *)

Definition kinds : list (Color * PieceType) :=
  [(white, pawn); (white, knight); (white, bishop); (white, rook); (white, queen); (white, king);
   (black, pawn); (black, knight); (black, bishop); (black, rook); (black, queen); (black, king)].

Definition at_sq (b : Board) (c : Color) (pt : PieceType) (s : Z) : bool :=
  Z.testbit (bb (pieces c b) pt) s.

Definition disjoint_pieces (b : Board) : bool :=
  forallb (fun k1 : Color * PieceType =>
             forallb (fun k2 : Color * PieceType =>
                        bool_decide (k1 = k2)
                        || (Z.land (bb (pieces k1.1 b) k1.2) (bb (pieces k2.1 b) k2.2) =? 0))
                     kinds)
          kinds.

Definition en_passant_ok (b : Board) : bool :=
  match en_passant_target b with
  | None => true
  | Some s =>
      let e := switchColor (side b) in
      negb (Z.testbit (occupancy b) s) && at_sq b e pawn (forward e s)
  end.

Definition castling_ok (b : Board) : bool :=
  forallb (fun c =>
             (negb (Z.testbit (castling b) (right_k c))
              || (at_sq b c king (base c + 4) && at_sq b c rook (base c + 7)))
             && (negb (Z.testbit (castling b) (right_q c))
                 || (at_sq b c king (base c + 4) && at_sq b c rook (base c))))
          [white; black].

Definition board_ok (b : Board) : bool :=
  disjoint_pieces b && en_passant_ok b && castling_ok b.

(** What a move of colour [c] must have in common with the board it is
    applied to, for [undo] to be able to reverse it. *)
Definition consistent (c : Color) (b : Board) (m : Move) : Prop :=
  let e := switchColor c in
  0 <= from m /\ 0 <= to m
  /\ at_sq b c (piece m) (from m) = true
  /\ Z.testbit (occupancy_of (pieces c b)) (to m) = false
  /\ match captured m with
     | Some cp => at_sq b e cp (capture_square c m) = true /\ 0 <= capture_square c m
     | None => Z.testbit (occupancy_of (pieces e b)) (to m) = false
     end
  /\ match promotion m with
     | Some pr => piece m = pawn /\ pr <> pawn /\ pr <> king
     | None => True
     end
  /\ match tag m with
     | tag_none => True
     | double_push =>
         piece m = pawn /\ captured m = None /\ promotion m = None
         /\ to m = forward c (forward c (from m))
         /\ Z.testbit (occupancy b) (forward c (from m)) = false
     | en_passant =>
         piece m = pawn /\ captured m = Some pawn /\ promotion m = None
         /\ Z.testbit (occupancy b) (to m) = false
     | castle_king =>
         piece m = king /\ captured m = None /\ promotion m = None
         /\ from m = base c + 4 /\ to m = base c + 6
         /\ at_sq b c rook (base c + 7) = true
         /\ Z.testbit (occupancy b) (base c + 5) = false
     | castle_queen =>
         piece m = king /\ captured m = None /\ promotion m = None
         /\ from m = base c + 4 /\ to m = base c + 2
         /\ at_sq b c rook (base c) = true
         /\ Z.testbit (occupancy b) (base c + 3) = false
     end.

(** A square holds at most one piece: what [disjoint_pieces] decides. *)
Definition disjoint (b : Board) : Prop :=
  forall s c1 p1 c2 p2,
    at_sq b c1 p1 s = true -> at_sq b c2 p2 s = true -> c1 = c2 /\ p1 = p2.

(** The bits a move sets: the mover on its destination, and the rook of a
    castling move on its new square. *)
Definition fresh (c : Color) (m : Move) (pt : PieceType) (s : Z) : Prop :=
  (pt = landing m /\ s = to m)
  \/ (exists rf, castle_rook c m = Some (rf, s) /\ pt = rook).

Section Positions.
Context `{ZobristKeys}.

(** The legal moves of the side to move: what [generate_moves] returns in a
    fresh list. *)
Definition legal_moves (b : Board) : list Move :=
  match generate_moves (side b) [] b process_start with
  | Some (_, l, _, _) => l
  | None => []
  end.

(** The positions a game or a perft traversal can reach: a well-formed
    position it was set up with, and every position a legal move leads to. *)
Inductive reachable : Board -> Prop :=
| reachable_root (b : Board) : board_ok b = true -> reachable b
| reachable_move (b : Board) (m : Move) :
    reachable b -> m ∈ legal_moves b -> reachable (move_m m b).

End Positions.

(** ** A fixed table and a front end, to run the program *)

(** A fixed table of keys, filled once as [Zobrist::initialize] fills its
    tables: entry [i] of a table is a xorshift of the table's seed plus [i]. *)
Definition xorshift (x : u64) : u64 :=
  let x := Z.lxor x (shl x 13) in
  let x := Z.lxor x (shr x 7) in
  Z.lxor x (shl x 17).

Definition key_row (seed : Z) (n : nat) : list u64 :=
  List.map (fun i => xorshift (seed + Z.of_nat i)) (seq 0 n).

Definition piece_table : list (list u64) :=
  Eval vm_compute in
    List.map (fun k => key_row (0x9E3779B97F4A7C15 + 64 * Z.of_nat k) 64) (seq 0 12).

Definition castling_table : list u64 :=
  Eval vm_compute in key_row 0xD1B54A32D192ED03 16.

Definition en_passant_table : list u64 :=
  Eval vm_compute in key_row 0x8CB92BA72F3D8DD7 8.

Definition side_entry : u64 :=
  Eval vm_compute in xorshift 0xABCDEF0123456789.

Definition piece_index (c : Color) (pt : PieceType) : nat :=
  (match c with white => 0 | black => 6 end
   + match pt with pawn => 0 | knight => 1 | bishop => 2 | rook => 3 | queen => 4 | king => 5 end)%nat.

Definition fixed_keys : ZobristKeys := {|
  piece_key c pt s := nth (Z.to_nat s) (nth (piece_index c pt) piece_table []) 0;
  castling_key r := nth (Z.to_nat r) castling_table 0;
  en_passant_key f := nth (Z.to_nat f) en_passant_table 0;
  side_key := side_entry
|}.

Definition digit (a : Ascii.ascii) : option Z :=
  let n := Z.of_nat (Ascii.nat_of_ascii a) in
  if (48 <=? n) && (n <=? 57) then Some (n - 48) else None.

Fixpoint digits (s : string) (acc : Z) : option Z :=
  match s with
  | EmptyString => Some acc
  | String a s' =>
      match digit a with
      | Some d => digits s' (10 * acc + d)
      | None => None
      end
  end.

(** A front end that is enough to run [main] on a perft command line:
    numbers are runs of decimal digits, the only position it knows is
    [startpos], and the test suite and the command loop do nothing. *)
Definition front_end `{ZobristKeys} : FrontEnd Board Move := {|
  stoi s := match s with EmptyString => None | _ => digits s 0 end;
  stoull s := match s with EmptyString => None | _ => digits s 0 end;
  Game_fen s := if String.eqb s "startpos" then Some startpos else None;
  PerftTestSuite_runTests p := p;
  CommandManager_parseCommand p := p
|}.

(** The move e2-e4, the starting position without the white king, and a
    perft command line. *)
Definition e2e4 : Move := mkMove 12 28 pawn None None double_push.

Definition startpos_without_white_king : Board :=
  mkBoard (mkPieces 0xFF00 0x42 0x24 0x81 0x08 0)
          (mkPieces 0x00FF000000000000 0x4200000000000000 0x2400000000000000
                    0x8100000000000000 0x0800000000000000 0x1000000000000000)
          true 12 None 0 1 0 [].

Definition perft_command_line : list string := ["slou"; "-perft"; "1"; "startpos"]%string.

(** The node count of [perft] from the starting position. *)
Definition perft_startpos (depth : Z) : option u64 :=
  match @perftSimpleEntry _ _ (@api fixed_keys) (@startpos fixed_keys) depth process_start with
  | Some (nodes, _, _) => Some nodes
  | None => None
  end.

End Chess.

(** * Facts about the generator and perft

    Proved for every implementation of the board interface; what a theorem
    needs of the board class is stated as its hypothesis. *)

Section GeneratorFacts.
Context {Board Move : Type} `{BoardApi Board Move}.

Lemma remove_middle (pre rest : list Move) (m : Move) :
  exists rest', remove (length pre) (pre ++ m :: rest) = pre ++ rest' /\ rest' ≡ₚ rest.
Proof.
  unfold remove.
  destruct rest as [|y rest0] using rev_ind.
  - exists []. rewrite last_snoc. split; [|done].
    rewrite length_app. simpl.
    replace (length pre + 1 - 1)%nat with (length pre) by lia.
    rewrite insert_app_r_alt by lia. rewrite Nat.sub_diag. simpl.
    rewrite take_app_length. by rewrite app_nil_r.
  - clear IHrest0. exists (y :: rest0). split.
    + replace (pre ++ m :: rest0 ++ [y]) with ((pre ++ m :: rest0) ++ [y])
        by (by rewrite <- app_assoc).
      rewrite last_snoc. rewrite length_app. simpl.
      replace (length (pre ++ m :: rest0) + 1 - 1)%nat with (length (pre ++ m :: rest0)) by lia.
      rewrite <- app_assoc. simpl.
      rewrite insert_app_r_alt by lia. rewrite Nat.sub_diag. simpl.
      replace (pre ++ y :: rest0 ++ [y]) with ((pre ++ y :: rest0) ++ [y])
        by (by rewrite <- app_assoc).
      replace (length (pre ++ m :: rest0)) with (length (pre ++ y :: rest0))
        by (rewrite !length_app; done).
      by rewrite take_app_length.
    + apply Permutation_cons_append.
Qed.

Lemma leaves_in_check_unfold (color : Color) (board : Board) (m : Move) :
  leaves_in_check color board m
  = isCheck (move m board) color (generate_attacks (switchColor color) (move m board)).
Proof. reflexivity. Qed.

(** One iteration of the filter loop: in both branches the trial application
    is undone, and that board goes to the next iteration. *)
Lemma filter_loop_step (fuel : nat) (color : Color) (i : nat)
      (l : MoveList Move) (board : Board) (m : Move) :
  l !! i = Some m ->
  filter_loop (S fuel) color i l board
  = if leaves_in_check color board m
    then filter_loop fuel color i (remove i l) (undo m (move m board))
    else filter_loop fuel color (S i) l (undo m (move m board)).
Proof.
  intros Hm. simpl.
  assert (i < length l)%nat as Hi by (eapply lookup_lt_Some; eauto).
  apply Nat.ltb_lt in Hi. rewrite Hi, Hm.
  rewrite leaves_in_check_unfold. reflexivity.
Qed.

Lemma filter_loop_done (fuel : nat) (color : Color) (i : nat)
      (l : MoveList Move) (board : Board) :
  (length l <= i)%nat -> filter_loop fuel color i l board = Some (l, board).
Proof.
  intros Hi. apply Nat.ltb_ge in Hi. destruct fuel; simpl; by rewrite Hi.
Qed.

(** The loop ends within [length l - i] iterations, whatever [move] and
    [undo] do. *)
Lemma filter_loop_total (fuel : nat) (color : Color) :
  forall (i : nat) (l : MoveList Move) (board : Board),
    (length l - i <= fuel)%nat ->
    exists l' board', filter_loop fuel color i l board = Some (l', board').
Proof.
  induction fuel as [|fuel IH]; intros i l board Hf.
  - exists l, board. apply filter_loop_done. lia.
  - destruct (decide (i < length l)%nat) as [Hi|Hi].
    + destruct (lookup_lt_is_Some_2 l i Hi) as [m Hm].
      rewrite (filter_loop_step _ _ _ _ _ _ Hm).
      destruct (leaves_in_check color board m).
      * apply IH.
        destruct (remove_middle (take i l) (drop (S i) l) m) as (r & Hr & Hp).
        rewrite length_take_le in Hr by lia.
        rewrite take_drop_middle in Hr by done.
        rewrite Hr, length_app, length_take_le by lia.
        rewrite Hp, length_drop. lia.
      * apply IH. lia.
    + exists l, board. apply filter_loop_done. lia.
Qed.

(** With every trial application reversed by [undo], the loop keeps the
    entries before [i], keeps of the others those that do not leave the king
    in check, and hands the board back. *)
Lemma filter_loop_spec (fuel : nat) (color : Color) (board : Board) :
  forall (i : nat) (l : MoveList Move),
    (forall m, m ∈ l -> undo m (move m board) = board) ->
    (length l - i <= fuel)%nat ->
    exists l', filter_loop fuel color i l board = Some (l', board)
               /\ l' ≡ₚ take i l
                        ++ filter (fun m => leaves_in_check color board m = false) (drop i l).
Proof.
  induction fuel as [|fuel IH]; intros i l Hundo Hf.
  - exists l. split; [apply filter_loop_done; lia|].
    rewrite drop_ge by lia. rewrite take_ge by lia. by rewrite app_nil_r.
  - destruct (decide (i < length l)%nat) as [Hi|Hi].
    + destruct (lookup_lt_is_Some_2 l i Hi) as [m Hm].
      rewrite (filter_loop_step _ _ _ _ _ _ Hm).
      rewrite (Hundo m) by (eapply list_elem_of_lookup_2; eauto).
      pose proof (take_drop_middle l i m Hm) as Hl.
      assert (length (take i l) = i) as Hlen by (rewrite length_take_le; lia).
      remember (take i l) as pre eqn:Epre. remember (drop (S i) l) as rest eqn:Erest.
      clear Epre Erest Hm Hi. subst l i.
      rewrite drop_app_length.
      destruct (leaves_in_check color board m) eqn:Hc.
      * destruct (remove_middle pre rest m) as (r & Hr & Hp).
        destruct (IH (length pre) (remove (length pre) (pre ++ m :: rest))) as (l' & Hl' & Hperm).
        { intros x Hx. apply Hundo. rewrite Hr in Hx.
          apply elem_of_app in Hx as [Hx|Hx]; apply elem_of_app; [by left|right].
          apply elem_of_cons. right. by rewrite <- Hp. }
        { rewrite Hr, length_app, Hp. rewrite length_app in Hf. simpl in Hf. lia. }
        exists l'. split; [done|].
        rewrite Hperm, Hr, take_app_length, drop_app_length.
        rewrite filter_cons_False by congruence.
        by rewrite Hp.
      * destruct (IH (S (length pre)) (pre ++ m :: rest)) as (l' & Hl' & Hperm).
        { done. }
        { rewrite length_app in *. simpl in *. lia. }
        exists l'. split; [done|].
        rewrite Hperm.
        replace (pre ++ m :: rest) with ((pre ++ [m]) ++ rest) by (by rewrite <- app_assoc).
        replace (S (length pre)) with (length (pre ++ [m]))
          by (rewrite length_app; simpl; lia).
        rewrite take_app_length, drop_app_length.
        rewrite filter_cons_True by done.
        by rewrite <- app_assoc.
    + exists l. split; [apply filter_loop_done; lia|].
      rewrite drop_ge by lia. rewrite take_ge by lia. by rewrite app_nil_r.
Qed.

(** *** [pseudolegal_moves] and [generate_moves] as functions of list and board *)

Lemma guarded_init_idem (p : Process Move) : guarded_init (guarded_init p) = guarded_init p.
Proof.
  unfold guarded_init. destruct (initialized_stuff p) eqn:E; simpl; [rewrite E|]; reflexivity.
Qed.

Lemma pseudolegal_moves_process (color : Color) (ml : MoveList Move) (board : Board)
      (p : Process Move) :
  (pseudolegal_moves color ml board p).2 = guarded_init p.
Proof. unfold pseudolegal_moves. destruct (getKing board color =? 0); reflexivity. Qed.

Lemma pseudolegal_moves_list (color : Color) (ml : MoveList Move) (board : Board)
      (p q : Process Move) :
  (pseudolegal_moves color ml board p).1 = (pseudolegal_moves color ml board q).1.
Proof. unfold pseudolegal_moves. destruct (getKing board color =? 0); reflexivity. Qed.

Lemma pseudolegal_moves_split (color : Color) (ml : MoveList Move) (board : Board)
      (p : Process Move) :
  pseudolegal_moves color ml board p
  = ((pseudolegal_moves color ml board process_start).1.1,
     (pseudolegal_moves color ml board process_start).1.2,
     guarded_init p).
Proof.
  rewrite <- (pseudolegal_moves_process color ml board p).
  rewrite (pseudolegal_moves_list color ml board process_start p).
  by destruct (pseudolegal_moves color ml board p) as [[? ?] ?].
Qed.

Lemma size_zero (l : MoveList Move) : (size l =? 0) = true <-> l = [].
Proof.
  unfold size. rewrite Z.eqb_eq. destruct l; simpl; [done|]. split; [lia|done].
Qed.

(** [generate_moves] returns, whatever the board operations do. *)
Lemma generate_moves_total (color : Color) (ml : MoveList Move) (board : Board)
      (p : Process Move) :
  exists n l board',
    generate_moves color ml board p = Some (n, l, board', guarded_init p) /\ n = size l.
Proof.
  unfold generate_moves. rewrite (pseudolegal_moves_split color ml board p).
  set (pl := (pseudolegal_moves color ml board process_start).1.2).
  destruct (size pl =? 0) eqn:Hz.
  - apply size_zero in Hz. rewrite Hz. by exists 0, [], board.
  - destruct (filter_loop_total (length pl) color 0 pl board) as (l' & b' & Hl); [lia|].
    rewrite Hl. by exists (size l'), l', b'.
Qed.

(** The result of [generate_moves] does not depend on the process state. *)
Lemma generate_moves_process (color : Color) (ml : MoveList Move) (board : Board)
      (p q : Process Move) (n : u64) (l : MoveList Move) (board' : Board) (p' : Process Move) :
  generate_moves color ml board p = Some (n, l, board', p') ->
  p' = guarded_init p
  /\ generate_moves color ml board q = Some (n, l, board', guarded_init q).
Proof.
  unfold generate_moves.
  rewrite (pseudolegal_moves_split color ml board p), (pseudolegal_moves_split color ml board q).
  set (pl := (pseudolegal_moves color ml board process_start).1.2).
  destruct (size pl =? 0).
  - intros [= <- <- <- <-]. done.
  - destruct (filter_loop (length pl) color 0 pl board) as [[l0 b0]|]; [|done].
    intros [= <- <- <- <-]. done.
Qed.

(** With every trial application reversed, [generate_moves] filters the list
    [pseudolegal_moves] has left and hands the board back. *)
Lemma generate_moves_spec (color : Color) (ml : MoveList Move) (board : Board)
      (p : Process Move) :
  (forall m, m ∈ (pseudolegal_moves color ml board p).1.2 -> undo m (move m board) = board) ->
  exists l,
    generate_moves color ml board p = Some (size l, l, board, guarded_init p)
    /\ l ≡ₚ filter (fun m => leaves_in_check color board m = false)
                   (pseudolegal_moves color ml board p).1.2.
Proof.
  rewrite (pseudolegal_moves_list color ml board p process_start).
  unfold generate_moves. rewrite (pseudolegal_moves_split color ml board p).
  set (pl := (pseudolegal_moves color ml board process_start).1.2).
  intros Hundo.
  destruct (size pl =? 0) eqn:Hz.
  - apply size_zero in Hz. rewrite Hz. by exists [].
  - destruct (filter_loop_spec (length pl) color board 0 pl Hundo) as (l' & Hl & Hp); [lia|].
    rewrite Hl. exists l'. split; [done|]. by rewrite Hp, take_0, drop_0.
Qed.

Lemma pseudolegal_eq (color : Color) (board : Board) (p : Process Move) :
  (pseudolegal_moves color [] board p).1.2 = pseudolegal color board.
Proof.
  unfold pseudolegal. by rewrite (pseudolegal_moves_list color [] board p process_start).
Qed.

End GeneratorFacts.

Section GeneratorClaims.
Context {Board Move : Type} `{BoardApi Board Move}.

(** C1.  Given a fresh list, [generate_moves] returns exactly the pseudolegal
    moves of the colour that do not leave its king attacked: the list it
    returns is, up to order, the pseudolegal list filtered by the check
    test; every move in it is pseudolegal and leaves the king outside the
    enemy's attack set, and every pseudolegal move missing from it leaves
    the king inside.  What is assumed of the board class is that [undo]
    reverses the trial application of every pseudolegal move. *)
Theorem generate_moves_legal (color : Color) (board : Board) (p : Process Move) :
  (forall m, m ∈ pseudolegal color board -> undo m (move m board) = board) ->
  exists legal : MoveList Move,
    generate_moves color [] board p = Some (size legal, legal, board, guarded_init p)
    /\ legal ≡ₚ filter (fun m => leaves_in_check color board m = false)
                       (pseudolegal color board)
    /\ (forall m, m ∈ legal ->
                  m ∈ pseudolegal color board /\ leaves_in_check color board m = false)
    /\ (forall m, m ∈ pseudolegal color board -> m ∉ legal ->
                  leaves_in_check color board m = true).
Proof.
  intros Hundo.
  destruct (generate_moves_spec color [] board p) as (l & Hl & Hp).
  { by rewrite pseudolegal_eq. }
  rewrite pseudolegal_eq in Hp.
  exists l. split; [done|]. split; [done|]. split.
  - intros m Hm. rewrite Hp in Hm. by apply list_elem_of_filter in Hm as [? ?].
  - intros m Hm Hn. destruct (leaves_in_check color board m) eqn:Hc; [done|].
    exfalso. apply Hn. rewrite Hp. by apply list_elem_of_filter.
Qed.

(** C7.  In the filter loop the trial application of a move is undone in
    both branches, and the board so obtained is the one the next iteration
    starts from; so, [undo] reversing every trial application,
    [generate_moves] returns with the board it was entered with. *)
Theorem generate_moves_restores_board (color : Color) (ml : MoveList Move)
        (board : Board) (p : Process Move) :
  (forall m, m ∈ (pseudolegal_moves color ml board p).1.2 -> undo m (move m board) = board) ->
  (forall fuel i l b m,
      l !! i = Some m ->
      filter_loop (S fuel) color i l b
      = filter_loop fuel color
                    (if leaves_in_check color b m then i else S i)
                    (if leaves_in_check color b m then remove i l else l)
                    (undo m (move m b)))
  /\ exists n l p', generate_moves color ml board p = Some (n, l, board, p').
Proof.
  intros Hundo. split.
  - intros fuel i l b m Hm. rewrite (filter_loop_step _ _ _ _ _ _ Hm).
    by destruct (leaves_in_check color b m).
  - destruct (generate_moves_spec color ml board p Hundo) as (l & Hl & _).
    by exists (size l), l, (guarded_init p).
Qed.

(** C9.  A second call of [generate_moves], made in the state the first call
    has left (board and process), returns the same list, so the same set of
    moves. *)
Theorem generate_moves_twice (color : Color) (board : Board) (p : Process Move) :
  (forall m, m ∈ pseudolegal color board -> undo m (move m board) = board) ->
  exists n1 l1 board1 p1 n2 l2 board2 p2,
    generate_moves color [] board p = Some (n1, l1, board1, p1)
    /\ generate_moves color [] board1 p1 = Some (n2, l2, board2, p2)
    /\ l2 = l1
    /\ (forall m, m ∈ l1 <-> m ∈ l2).
Proof.
  intros Hundo.
  destruct (generate_moves_spec color [] board p) as (l & Hl & _).
  { by rewrite pseudolegal_eq. }
  destruct (generate_moves_process color [] board p (guarded_init p) _ _ _ _ Hl) as [_ Hq].
  exists (size l), l, board, (guarded_init p), (size l), l, board,
         (guarded_init (guarded_init p)).
  done.
Qed.

(** C4.  When the king bitboard of the colour is zero, [pseudolegal_moves]
    returns 0 and leaves the list as it was, and [generate_moves], given a
    fresh list, returns 0 moves, with a result and with the board untouched. *)
Theorem no_king_no_moves (color : Color) (board : Board) (p : Process Move) :
  getKing board color = 0 ->
  (forall ml, pseudolegal_moves color ml board p = (0, ml, guarded_init p))
  /\ generate_moves color [] board p = Some (0, [], board, guarded_init p).
Proof.
  intros Hk.
  assert (forall ml, pseudolegal_moves color ml board p = (0, ml, guarded_init p)) as Hpl.
  { intros ml. unfold pseudolegal_moves. by rewrite Hk. }
  split; [done|]. unfold generate_moves. by rewrite Hpl.
Qed.

(** C5.  For [depth <= 1], [perft] returns the size of the list that
    [generate_moves] has filled from empty, and its value is the same
    whatever the recursive call would do: the call is not made. *)
Theorem perft_leaf (color : Color) (print_moves : bool) (board : Board)
        (depth : Z) (p : Process Move) :
  depth <= 1 ->
  exists legal board' p',
    generate_moves color [] board p = Some (size legal, legal, board', p')
    /\ (forall rec, perft_call rec color print_moves board depth p
                    = Some (size legal, board', p'))
    /\ (forall fuel, perft (S fuel) color print_moves board depth p
                     = Some (size legal, board', p')).
Proof.
  intros Hd.
  destruct (generate_moves_total color [] board p) as (n & l & b' & Hg & ->).
  exists l, b', (guarded_init p). split; [done|].
  assert (forall rec, perft_call rec color print_moves board depth p
                      = Some (size l, b', guarded_init p)) as Hrec.
  { intros rec. unfold perft_call. rewrite Hg.
    apply Z.leb_le in Hd. by rewrite Hd. }
  split; [done|]. intros fuel. simpl. apply Hrec.
Qed.

End GeneratorClaims.

Section PerftFacts.
Context {Board Move : Type} `{BoardApi Board Move}.

Lemma for_each_invariant {St : Type} (P : St -> Prop)
      (body : Move -> St -> option St) (l : list Move) :
  forall s,
    P s ->
    (forall m s, m ∈ l -> P s -> exists s', body m s = Some s' /\ P s') ->
    exists s', for_each body l s = Some s' /\ P s'.
Proof.
  induction l as [|m l IH]; intros s Hs Hbody; simpl.
  - by exists s.
  - destruct (Hbody m s) as (s1 & -> & Hs1); [apply elem_of_cons; by left|done|].
    apply IH; [done|]. intros m' s' Hm'. apply Hbody. apply elem_of_cons. by right.
Qed.

(** An invariant of positions that makes [undo] reverse [move], for the
    trial applications of the filter and for the moves [perft] plays. *)
Variable Inv : Color -> Board -> Prop.

Hypothesis trial_undone :
  forall c b, Inv c b ->
    forall m, m ∈ pseudolegal c b -> undo m (move m b) = b.

Hypothesis played_undone :
  forall c b, Inv c b ->
    forall m, m ∈ pseudolegal c b -> leaves_in_check c b m = false ->
      Inv (switchColor c) (move_t c m b) /\ undo_t c m (move_t c m b) = b.

Lemma perft_restores (fuel : nat) :
  forall (depth : Z) (c : Color) (pm : bool) (b : Board) (p : Process Move),
    Inv c b -> depth <= Z.of_nat fuel -> (1 <= fuel)%nat ->
    exists n p', perft fuel c pm b depth p = Some (n, b, p').
Proof.
  induction fuel as [|fuel IH]; intros depth c pm b p HI Hd Hf; [lia|].
  simpl. unfold perft_call.
  destruct (generate_moves_spec c [] b p) as (l & Hl & Hp).
  { rewrite pseudolegal_eq. by apply trial_undone. }
  rewrite pseudolegal_eq in Hp. rewrite Hl.
  destruct (depth <=? 1) eqn:Hle; [by eexists _, _|].
  apply Z.leb_gt in Hle.
  destruct (for_each_invariant (fun s : u64 * Board * Process Move => s.1.2 = b)
              (perft_body (fun board p0 => perft fuel (switchColor c) false board (depth - 1) p0)
                          c pm) l (0, b, guarded_init p)) as ([[n' b'] p'] & Hfe & Hb').
  { done. }
  { intros m [[n0 b0] p0] Hm Hb0. simpl in Hb0. subst b0.
    rewrite Hp in Hm. apply list_elem_of_filter in Hm as [Hsafe Hm].
    destruct (played_undone c b HI m Hm Hsafe) as [HI' Hu].
    unfold perft_body.
    destruct (IH (depth - 1) (switchColor c) false (move_t c m b) p0) as (n1 & p1 & Hrec);
      [done|lia|lia|].
    rewrite Hrec. eexists. split; [reflexivity|]. simpl. done. }
  simpl in Hb'. subst b'. rewrite Hfe. by eexists _, _.
Qed.

(** C6.  Whatever the depth, [perft] returns, and with the board it was
    called with: every move played during the traversal has been undone.
    What is assumed of the board class is an invariant of positions under
    which [undo] reverses [move], both for the trial applications of the
    filter and for the legal moves played. *)
Theorem perft_restores_board (depth : Z) (c : Color) (print_moves : bool)
        (b : Board) (p : Process Move) :
  Inv c b ->
  exists n p', perft (perft_fuel depth) c print_moves b depth p = Some (n, b, p').
Proof.
  intros HI. apply perft_restores; [done| |]; unfold perft_fuel; lia.
Qed.

End PerftFacts.

Section Appending.
Context {Board Move : Type} `{BoardApi Board Move}.

(** The generators of the leaper and slider headers append to the list they
    are given. *)
Hypothesis pawn_appends :
  forall c ml b, leapers_pawn c ml b = ml ++ leapers_pawn c [] b.
Hypothesis knight_appends :
  forall c ml b, leapers_knight c ml b = ml ++ leapers_knight c [] b.
Hypothesis king_appends :
  forall c ml b a, leapers_king c ml b a = ml ++ leapers_king c [] b a.
Hypothesis sliders_append :
  forall pt c ml b, sliders_generateMoves pt c ml b = ml ++ sliders_generateMoves pt c [] b.

Lemma pseudolegal_moves_appends (color : Color) (ml : MoveList Move) (board : Board)
      (p : Process Move) :
  (pseudolegal_moves color ml board p).1.2 = ml ++ pseudolegal color board.
Proof.
  unfold pseudolegal, pseudolegal_moves.
  destruct (getKing board color =? 0); simpl.
  - by rewrite app_nil_r.
  - rewrite (sliders_append queen), (sliders_append rook), (sliders_append bishop).
    rewrite king_appends, knight_appends, pawn_appends.
    symmetry.
    rewrite (sliders_append queen), (sliders_append rook), (sliders_append bishop).
    rewrite king_appends, knight_appends.
    by rewrite <- !app_assoc.
Qed.

(** C10, as amended.  [pseudolegal_moves] and [generate_moves] append to the
    list they are given.  [pseudolegal_moves] returns the size of the whole
    list when the colour has a king, and 0, with the list as it was, when the
    king bitboard is zero.  [generate_moves] returns the size of the list it
    leaves; the entries present before the call go through the legality
    filter with the new ones, and those that pass are counted. *)
Theorem move_lists_are_appended_to (color : Color) (ml : MoveList Move)
        (board : Board) (p : Process Move) :
  let '(n, ml', _) := pseudolegal_moves color ml board p in
  ml' = ml ++ pseudolegal color board
  /\ (getKing board color <> 0 -> n = size ml')
  /\ (getKing board color = 0 -> n = 0 /\ ml' = ml)
  /\ (exists l board',
         generate_moves color ml board p = Some (size l, l, board', guarded_init p))
  /\ ((forall m, m ∈ ml ++ pseudolegal color board -> undo m (move m board) = board) ->
      exists l,
        generate_moves color ml board p = Some (size l, l, board, guarded_init p)
        /\ l ≡ₚ filter (fun m => leaves_in_check color board m = false)
                       (ml ++ pseudolegal color board)).
Proof.
  pose proof (pseudolegal_moves_appends color ml board p) as Happ.
  pose proof (generate_moves_spec color ml board p) as Hspec.
  rewrite Happ in Hspec.
  destruct (generate_moves_total color ml board p) as (n0 & l0 & b0 & Hg & ->).
  assert (getKing board color <> 0 ->
          (pseudolegal_moves color ml board p).1.1
          = size (pseudolegal_moves color ml board p).1.2) as Hsize.
  { intros Hk. unfold pseudolegal_moves.
    apply Z.eqb_neq in Hk. by rewrite Hk. }
  assert (getKing board color = 0 ->
          (pseudolegal_moves color ml board p).1.1 = 0
          /\ (pseudolegal_moves color ml board p).1.2 = ml) as Hzero.
  { intros Hk. unfold pseudolegal_moves. by rewrite Hk. }
  destruct (pseudolegal_moves color ml board p) as [[n ml'] p'].
  simpl in *. repeat split; try tauto.
  - by exists l0, b0.
Qed.

End Appending.

Section Initialisation.
Context {Board Move : Type} `{BoardApi Board Move}.

Lemma init_runs_initialize (p : Process Move) :
  init_runs (initializePrecomputedStuff p) = S (init_runs p).
Proof.
  unfold init_runs, initializePrecomputedStuff. simpl.
  rewrite List.filter_app, length_app. simpl. lia.
Qed.

Lemma init_runs_guarded (p : Process Move) :
  init_runs (guarded_init p)
  = if initialized_stuff p then init_runs p else S (init_runs p).
Proof.
  unfold guarded_init. destruct (initialized_stuff p); simpl; [done|].
  apply init_runs_initialize.
Qed.

Lemma initialized_guarded (p : Process Move) : initialized_stuff (guarded_init p) = true.
Proof. unfold guarded_init. by destruct (initialized_stuff p) eqn:E. Qed.

Lemma guarded_init_initialized (p : Process Move) :
  initialized_stuff p = true -> guarded_init p = p.
Proof. unfold guarded_init. by intros ->. Qed.

(** [perft] returns when it is given fuel for its depth; it leaves the flag
    set, and has run the initialisation if and only if the flag was clear. *)
Lemma perft_process (fuel : nat) :
  forall (depth : Z) (c : Color) (pm : bool) (b : Board) (p : Process Move),
    depth <= Z.of_nat fuel -> (1 <= fuel)%nat ->
    exists n b' p',
      perft fuel c pm b depth p = Some (n, b', p')
      /\ initialized_stuff p' = true
      /\ init_calls p' = init_calls (guarded_init p).
Proof.
  induction fuel as [|fuel IH]; intros depth c pm b p Hd Hf; [lia|].
  simpl. unfold perft_call.
  destruct (generate_moves_total c [] b p) as (n0 & l & b0 & -> & ->).
  destruct (depth <=? 1) eqn:Hle.
  { eexists _, _, _. split; [reflexivity|]. split; [apply initialized_guarded|done]. }
  apply Z.leb_gt in Hle.
  destruct (for_each_invariant
              (fun s : u64 * Board * Process Move =>
                 initialized_stuff s.2 = true
                 /\ init_calls s.2 = init_calls (guarded_init p))
              (perft_body (fun board p0 => perft fuel (switchColor c) false board (depth - 1) p0)
                          c pm) l (0, b0, guarded_init p)) as ([[n' b'] p'] & Hfe & Hi & Hc).
  { split; [apply initialized_guarded|done]. }
  { intros m [[n1 b1] p1] _ [Hi1 Hc1]. simpl in Hi1, Hc1.
    unfold perft_body.
    destruct (IH (depth - 1) (switchColor c) false (move_t c m b1) p1)
      as (n2 & b2 & p2 & -> & Hi2 & Hc2); [lia|lia|].
    rewrite (guarded_init_initialized p1 Hi1) in Hc2.
    eexists. split; [reflexivity|]. simpl.
    destruct pm; simpl; split; congruence. }
  rewrite Hfe. simpl in Hi, Hc.
  eexists _, _, _. split; [reflexivity|].
  destruct pm; simpl; split; congruence.
Qed.

End Initialisation.

Section MainFacts.
Context {Board Move : Type} `{BoardApi Board Move} `{FrontEnd Board Move}.

Lemma init_runs_print (o : Output Move) (p : Process Move) :
  init_runs (print o p) = init_runs p.
Proof. reflexivity. Qed.

(** Every run of [main] on a well-formed perft command line runs the
    initialisation twice: once at the head of [main], and once more behind
    the flag that [main] has left clear. *)
Lemma main_perft_init_runs (args : list string) (depth : Z) (board : Board) :
  length args = 4%nat ->
  arg args 1 = "-perft"%string ->
  stoi (arg args 2) = Some depth ->
  Game_fen (arg args 3) = Some board ->
  exists p, main args process_start = Some (0, p) /\ init_runs p = 2%nat.
Proof.
  intros Hlen Harg Hd Hfen. unfold main. rewrite Hlen, Harg. simpl.
  unfold perft_test. rewrite Hlen, Hd, Hfen. simpl.
  unfold perftSimpleEntry.
  destruct (perft_process (perft_fuel depth) depth
              (if whiteTurn board then white else black) false board
              (initializePrecomputedStuff process_start))
    as (n & b' & p' & -> & _ & Hc); [unfold perft_fuel; lia|unfold perft_fuel; lia|].
  eexists. split; [reflexivity|].
  rewrite init_runs_print. unfold init_runs. rewrite Hc. reflexivity.
Qed.

End MainFacts.

(** * Facts about the board, the moves and the tables *)

Module ChessFacts.
Import Chess.

(** *** The tables at a few squares *)

Example knightAttacks_b1 : knightAttacks 1 = 0x50800.
Proof. vm_compute. reflexivity. Qed.

Example kingAttacks_e1 : kingAttacks 4 = 0x3828.
Proof. vm_compute. reflexivity. Qed.

Example pawnAttacks_white_e2 : pawnAttacks white 12 = 0x280000.
Proof. vm_compute. reflexivity. Qed.

Example pawnAttacks_black_a7 : pawnAttacks black 48 = 0x20000000000.
Proof. vm_compute. reflexivity. Qed.

(** A rook on a1 with pieces on a4 and c1: the ray stops on the first
    occupied square and includes it. *)
Example rookAttacks_a1_blocked : rookAttacks 0 0x1000005 = 0x1010106.
Proof. vm_compute. reflexivity. Qed.

Example bishopAttacks_c1_empty : bishopAttacks 2 0x4 = 0x804020110A00.
Proof. vm_compute. reflexivity. Qed.

(** *** Bits *)

Lemma bit_shiftl (s : Z) : bit s = Z.shiftl 1 s.
Proof.
  unfold bit. destruct s as [|p|p]; [reflexivity| |reflexivity].
  repeat (destruct p as [p|p|]; try reflexivity).
Qed.

Lemma testbit_bit (s k : Z) : 0 <= s -> Z.testbit (bit s) k = (k =? s).
Proof.
  intros Hs. rewrite bit_shiftl.
  destruct (Z.ltb_spec k 0) as [Hk|Hk].
  - rewrite Z.testbit_neg_r by done. symmetry. apply Z.eqb_neq. lia.
  - rewrite Z.shiftl_spec by done.
    destruct (Z.eqb_spec k s) as [->|Hne].
    + by rewrite Z.sub_diag.
    + destruct (Z.ltb_spec k s).
      * apply Z.testbit_neg_r. lia.
      * apply Z.bits_above_log2; simpl; lia.
Qed.

Lemma testbit_set_bit (x s k : Z) :
  0 <= s -> Z.testbit (set_bit x s) k = Z.testbit x k || (k =? s).
Proof. intros Hs. unfold set_bit. by rewrite Z.lor_spec, testbit_bit. Qed.

Lemma testbit_clear_bit (x s k : Z) :
  0 <= s -> Z.testbit (clear_bit x s) k = Z.testbit x k && negb (k =? s).
Proof. intros Hs. unfold clear_bit. by rewrite Z.ldiff_spec, testbit_bit. Qed.

Lemma set_clear (x s : Z) :
  0 <= s -> Z.testbit x s = true -> set_bit (clear_bit x s) s = x.
Proof.
  intros Hs Hx. apply Z.bits_inj'. intros k _.
  rewrite testbit_set_bit, testbit_clear_bit by done.
  destruct (Z.eqb_spec k s) as [->|_]; [by rewrite Hx|by destruct (Z.testbit x k)].
Qed.

Lemma clear_set (x s : Z) :
  0 <= s -> Z.testbit x s = false -> clear_bit (set_bit x s) s = x.
Proof.
  intros Hs Hx. apply Z.bits_inj'. intros k _.
  rewrite testbit_clear_bit, testbit_set_bit by done.
  destruct (Z.eqb_spec k s) as [->|_]; [by rewrite Hx|by destruct (Z.testbit x k)].
Qed.

Lemma toggle_roundtrip (x a b : Z) :
  0 <= a -> 0 <= b -> Z.testbit x a = true -> Z.testbit x b = false ->
  set_bit (clear_bit (set_bit (clear_bit x a) b) b) a = x.
Proof.
  intros Ha Hb Hxa Hxb.
  rewrite clear_set; [by apply set_clear|done|].
  rewrite testbit_clear_bit by done. by rewrite Hxb.
Qed.

Lemma squares_pos_sound (p : positive) :
  forall k s, s ∈ squares_pos p k -> k <= s /\ Z.testbit (Zpos p) (s - k) = true.
Proof.
  induction p as [q IH|q IH|]; intros k s Hs; simpl in Hs.
  - apply elem_of_cons in Hs as [->|Hs].
    + by rewrite Z.sub_diag.
    + apply IH in Hs as [Hk Hb]. split; [lia|].
      replace (s - k) with (Z.succ (s - (k + 1))) by lia.
      rewrite Pos2Z.inj_xI. rewrite Z.testbit_odd_succ by lia. done.
  - apply IH in Hs as [Hk Hb]. split; [lia|].
    replace (s - k) with (Z.succ (s - (k + 1))) by lia.
    rewrite Pos2Z.inj_xO. rewrite Z.testbit_even_succ by lia. done.
  - apply list_elem_of_singleton in Hs as ->. by rewrite Z.sub_diag.
Qed.

Lemma squares_sound (x s : Z) : s ∈ squares x -> 0 <= s /\ Z.testbit x s = true.
Proof.
  destruct x as [|p|p]; simpl; intros Hs; try by apply elem_of_nil in Hs.
  apply squares_pos_sound in Hs as [Hk Hb]. by rewrite Z.sub_0_r in Hb.
Qed.

(** *** Piece sets *)

Lemma bb_upd (pt pt' : PieceType) (f : u64 -> u64) (ps : Pieces) :
  bb (upd pt f ps) pt' = if decide (pt = pt') then f (bb ps pt) else bb ps pt'.
Proof. by destruct pt, pt'. Qed.

Lemma bb_upd_same (pt : PieceType) (f : u64 -> u64) (ps : Pieces) :
  bb (upd pt f ps) pt = f (bb ps pt).
Proof. by destruct pt. Qed.

Lemma bb_upd_other (pt pt' : PieceType) (f : u64 -> u64) (ps : Pieces) :
  pt <> pt' -> bb (upd pt f ps) pt' = bb ps pt'.
Proof. by destruct pt, pt'. Qed.

Lemma pieces_ext (ps ps' : Pieces) : (forall pt, bb ps pt = bb ps' pt) -> ps = ps'.
Proof.
  intros He. destruct ps, ps'.
  pose proof (He pawn). pose proof (He knight). pose proof (He bishop).
  pose proof (He rook). pose proof (He queen). pose proof (He king).
  simpl in *. congruence.
Qed.

Lemma testbit_occupancy_of (ps : Pieces) (s : Z) :
  Z.testbit (occupancy_of ps) s = true <-> exists pt, Z.testbit (bb ps pt) s = true.
Proof.
  unfold occupancy_of. rewrite !Z.lor_spec, !orb_true_iff. split.
  - intros [?|[?|[?|[?|[?|?]]]]];
      [exists pawn|exists knight|exists bishop|exists rook|exists queen|exists king]; done.
  - intros [[] Hpt]; simpl in Hpt; tauto.
Qed.

Lemma testbit_occupancy (b : Board) (s : Z) :
  Z.testbit (occupancy b) s = true <-> exists c pt, at_sq b c pt s = true.
Proof.
  unfold occupancy, at_sq. rewrite Z.lor_spec, orb_true_iff, !testbit_occupancy_of. split.
  - intros [[pt ?]|[pt ?]]; [by exists white, pt|by exists black, pt].
  - intros [[] [pt ?]]; [left|right]; by exists pt.
Qed.

Lemma occupancy_of_false (ps : Pieces) (s : Z) (pt : PieceType) :
  Z.testbit (occupancy_of ps) s = false -> Z.testbit (bb ps pt) s = false.
Proof.
  intros Ho. destruct (Z.testbit (bb ps pt) s) eqn:Hb; [|done].
  rewrite <- Ho. symmetry. apply testbit_occupancy_of. by exists pt.
Qed.

Lemma occupancy_false (b : Board) (s : Z) (c : Color) (pt : PieceType) :
  Z.testbit (occupancy b) s = false -> at_sq b c pt s = false.
Proof.
  intros Ho. destruct (at_sq b c pt s) eqn:Hb; [|done].
  rewrite <- Ho. symmetry. apply testbit_occupancy. by exists c, pt.
Qed.

Lemma piece_on_Some (ps : Pieces) (s : Z) (pt : PieceType) :
  piece_on ps s = Some pt -> Z.testbit (bb ps pt) s = true.
Proof.
  unfold piece_on.
  repeat (match goal with |- context [if ?t then _ else _] => destruct t eqn:? end);
    intros [= <-]; done.
Qed.

Lemma piece_on_None (ps : Pieces) (s : Z) :
  piece_on ps s = None -> Z.testbit (occupancy_of ps) s = false.
Proof.
  unfold piece_on, occupancy_of.
  repeat (match goal with |- context [if ?t then _ else _] => destruct t eqn:? end);
    intros [=]. rewrite !Z.lor_spec.
  repeat match goal with H : _ = false |- _ => rewrite H; clear H end. done.
Qed.

(** *** The round trip *)

Lemma base_nonneg (c : Color) : 0 <= base c.
Proof. by destruct c. Qed.

Lemma switchColor_involutive (c : Color) : switchColor (switchColor c) = c.
Proof. by destruct c. Qed.

Lemma switchColor_neq (c : Color) : switchColor c <> c.
Proof. by destruct c. Qed.

Ltac bb_cases :=
  rewrite ?bb_upd; repeat case_decide; subst; try congruence; try done.

Ltac bb_solve :=
  bb_cases;
  first [ by apply clear_set
        | by apply set_clear
        | apply toggle_roundtrip; (done || lia) ].

(** [unplace_mover] reverses [place_mover] on the mover's bitboards. *)
Lemma place_unplace (c : Color) (b : Board) (m : Move) :
  consistent c b m ->
  unplace_mover c m (place_mover c m (pieces c b)) = pieces c b.
Proof.
  intros (Hf & Ht & Hfrom & Hocc & _ & Hpromo & Htag).
  unfold at_sq in *.
  assert (forall pt, Z.testbit (bb (pieces c b) pt) (to m) = false) as Hto
      by (intros pt; by apply occupancy_of_false).
  pose proof (base_nonneg c) as Hbase.
  apply pieces_ext. intros pt.
  unfold place_mover, unplace_mover, castle_rook, landing.
  destruct (tag m) eqn:Etag.
  - (* no tag *)
    destruct (promotion m) as [pr|] eqn:Epr.
    + destruct Hpromo as (Hp & Hpr & _). rewrite Hp in *. bb_solve.
    + bb_solve.
  - destruct Htag as (Hp & _ & Hpr & _). rewrite Hpr, Hp in *. bb_solve.
  - destruct Htag as (Hp & _ & Hpr & _). rewrite Hpr, Hp in *. bb_solve.
  - destruct Htag as (Hp & _ & Hpr & _ & _ & Hrook & Hempty).
    rewrite Hpr, Hp in *.
    apply (occupancy_false _ _ c rook) in Hempty. unfold at_sq in *.
    bb_solve.
  - destruct Htag as (Hp & _ & Hpr & _ & _ & Hrook & Hempty).
    rewrite Hpr, Hp in *.
    apply (occupancy_false _ _ c rook) in Hempty. unfold at_sq in *.
    bb_solve.
Qed.

(** [restore_captured] reverses [remove_captured] on the other side's
    bitboards. *)
Lemma remove_restore (c : Color) (b : Board) (m : Move) :
  consistent c b m ->
  restore_captured c m (captured m)
    (remove_captured c m (captured m) (pieces (switchColor c) b))
  = pieces (switchColor c) b.
Proof.
  intros (_ & _ & _ & _ & Hcap & _).
  unfold remove_captured, restore_captured.
  destruct (captured m) as [cp|]; [|done].
  destruct Hcap as [Hcap Hsq]. unfold at_sq in Hcap.
  apply pieces_ext. intros pt. bb_solve.
Qed.

Lemma lxor_cancel (k d : Z) : Z.lxor (Z.lxor k d) d = k.
Proof. by rewrite Z.lxor_assoc, Z.lxor_nilpotent, Z.lxor_0_r. Qed.

Lemma pieces_with_pieces (c : Color) (own enemy : Pieces) (b : Board) :
  pieces c (with_pieces c own enemy b) = own
  /\ pieces (switchColor c) (with_pieces c own enemy b) = enemy.
Proof. by destruct c. Qed.

Section RoundTrip.
Context `{ZobristKeys}.

(** The round trip: [undo<color>] after [move<color>] gives back the board,
    every field of it, for a move that is consistent with the board. *)
Lemma undo_c_move_c (c : Color) (b : Board) (m : Move) :
  consistent c b m -> undo_c c m (move_c c m b) = b.
Proof.
  intros Hc.
  pose proof (place_unplace c b m Hc) as Hown.
  pose proof (remove_restore c b m Hc) as Henemy.
  unfold undo_c, move_c.
  destruct c; simpl in *; rewrite Hown, Henemy, lxor_cancel, negb_involutive;
    destruct b; simpl; f_equal; lia.
Qed.

End RoundTrip.

(** *** What [board_ok] says *)

Lemma kinds_all (c : Color) (pt : PieceType) : In (c, pt) kinds.
Proof. destruct c, pt; simpl; tauto. Qed.

Lemma disjoint_pieces_sound (b : Board) : disjoint_pieces b = true -> disjoint b.
Proof.
  unfold disjoint_pieces, disjoint, at_sq. intros Hd s c1 p1 c2 p2 H1 H2.
  rewrite forallb_forall in Hd. specialize (Hd (c1, p1) (kinds_all c1 p1)).
  rewrite forallb_forall in Hd. specialize (Hd (c2, p2) (kinds_all c2 p2)).
  simpl in Hd. apply orb_true_iff in Hd as [Hd|Hd].
  - apply bool_decide_eq_true in Hd. by injection Hd.
  - apply Z.eqb_eq in Hd.
    assert (Z.testbit (Z.land (bb (pieces c1 b) p1) (bb (pieces c2 b) p2)) s = true) as Hl
        by (by rewrite Z.land_spec, H1, H2).
    rewrite Hd, Z.bits_0 in Hl. done.
Qed.

Lemma disjoint_pieces_complete (b : Board) : disjoint b -> disjoint_pieces b = true.
Proof.
  unfold disjoint_pieces, disjoint, at_sq. intros Hd.
  apply forallb_forall. intros [c1 p1] _. apply forallb_forall. intros [c2 p2] _. simpl.
  destruct (decide ((c1, p1) = (c2, p2))) as [He|Hne].
  - by rewrite bool_decide_eq_true_2.
  - apply orb_true_iff. right. apply Z.eqb_eq. apply Z.bits_inj'. intros n _.
    rewrite Z.land_spec, Z.bits_0.
    destruct (Z.testbit (bb (pieces c1 b) p1) n) eqn:E1; [|done].
    destruct (Z.testbit (bb (pieces c2 b) p2) n) eqn:E2; [|done].
    destruct (Hd n c1 p1 c2 p2 E1 E2) as [-> ->]. done.
Qed.

Lemma board_ok_disjoint (b : Board) : board_ok b = true -> disjoint b.
Proof.
  unfold board_ok. rewrite !andb_true_iff. intros [[Hd _] _].
  by apply disjoint_pieces_sound.
Qed.

Lemma board_ok_en_passant (b : Board) (s : Z) :
  board_ok b = true -> en_passant_target b = Some s ->
  Z.testbit (occupancy b) s = false
  /\ at_sq b (switchColor (side b)) pawn (forward (switchColor (side b)) s) = true.
Proof.
  unfold board_ok, en_passant_ok. rewrite !andb_true_iff. intros [[_ He] _] Hs.
  rewrite Hs in He. apply andb_true_iff in He as [He1 He2].
  by apply negb_true_iff in He1.
Qed.

Lemma board_ok_castling (b : Board) (c : Color) :
  board_ok b = true ->
  (Z.testbit (castling b) (right_k c) = true ->
   at_sq b c king (base c + 4) = true /\ at_sq b c rook (base c + 7) = true)
  /\ (Z.testbit (castling b) (right_q c) = true ->
      at_sq b c king (base c + 4) = true /\ at_sq b c rook (base c) = true).
Proof.
  unfold board_ok, castling_ok. rewrite !andb_true_iff. intros [_ Hc].
  rewrite forallb_forall in Hc.
  assert (In c [white; black]) as Hin by (destruct c; simpl; tauto).
  specialize (Hc c Hin). apply andb_true_iff in Hc as [Hk Hq].
  split; intros Hr; [rewrite Hr in Hk|rewrite Hr in Hq]; simpl in *;
    by apply andb_true_iff.
Qed.

Lemma occupancy_split (b : Board) (c : Color) (s : Z) :
  Z.testbit (occupancy b) s = false ->
  Z.testbit (occupancy_of (pieces c b)) s = false
  /\ Z.testbit (occupancy_of (pieces (switchColor c) b)) s = false.
Proof.
  unfold occupancy. rewrite Z.lor_spec. intros Ho. apply orb_false_iff in Ho as [? ?].
  by destruct c.
Qed.

Lemma testbit_nonneg (x s : Z) : Z.testbit x s = true -> 0 <= s.
Proof.
  intros Hx. destruct (Z.ltb_spec s 0); [|done].
  by rewrite Z.testbit_neg_r in Hx.
Qed.

Lemma land_zero_testbit (x y s : Z) :
  Z.land x y = 0 -> Z.testbit y s = true -> Z.testbit x s = false.
Proof.
  intros Hl Hy. destruct (Z.testbit x s) eqn:Hx; [|done].
  assert (Z.testbit (Z.land x y) s = true) as H0 by (by rewrite Z.land_spec, Hx, Hy).
  by rewrite Hl, Z.bits_0 in H0.
Qed.

(** *** The generators produce consistent moves *)

Lemma piece_moves_consistent (pt : PieceType) (attacks : Z -> u64) (c : Color)
      (b : Board) (m : Move) :
  m ∈ piece_moves pt attacks c b -> consistent c b m.
Proof.
  unfold piece_moves, moves_to. rewrite list_elem_of_In, in_flat_map.
  intros (f & Hf & Hm). apply in_map_iff in Hm as (t & <- & Ht).
  apply list_elem_of_In, squares_sound in Hf as [Hf0 Hf].
  apply list_elem_of_In, squares_sound in Ht as [Ht0 Ht].
  rewrite Z.ldiff_spec in Ht. apply andb_true_iff in Ht as [_ Ht].
  apply negb_true_iff in Ht.
  unfold consistent, capture_square, at_sq. simpl.
  repeat split; try done.
  destruct (piece_on _ t) as [cp|] eqn:Hp.
  - split; [by apply piece_on_Some|done].
  - by apply piece_on_None.
Qed.

Lemma pawn_arrivals_consistent (c : Color) (b : Board) (f t : Z)
      (cap : option PieceType) (m : Move) :
  0 <= f -> 0 <= t ->
  at_sq b c pawn f = true ->
  Z.testbit (occupancy_of (pieces c b)) t = false ->
  match cap with
  | Some cp => at_sq b (switchColor c) cp t = true
  | None => Z.testbit (occupancy_of (pieces (switchColor c) b)) t = false
  end ->
  m ∈ pawn_arrivals c f t cap -> consistent c b m.
Proof.
  intros Hf Ht Hfrom Hto Hcap. unfold pawn_arrivals.
  assert (forall pr, consistent c b (mkMove f t pawn cap pr tag_none)
                     <-> match pr with
                         | Some p => p <> pawn /\ p <> king
                         | None => True
                         end) as Hcons.
  { intros pr. unfold consistent, capture_square. simpl.
    destruct cap, pr; tauto. }
  destruct (last_rank c t).
  - rewrite list_elem_of_In, in_map_iff. intros (pr & <- & Hpr).
    apply Hcons. unfold promotions in Hpr. simpl in Hpr.
    destruct Hpr as [<-|[<-|[<-|[<-|[]]]]]; done.
  - intros ->%list_elem_of_singleton. by apply Hcons.
Qed.

Lemma pawn_moves_consistent (b : Board) (m : Move) :
  board_ok b = true -> m ∈ pawn_moves (side b) b -> consistent (side b) b m.
Proof.
  intros Hok. set (c := side b).
  unfold pawn_moves. rewrite list_elem_of_In, in_flat_map.
  intros (f & Hf & Hm).
  apply list_elem_of_In, squares_sound in Hf as [Hf0 Hf].
  apply list_elem_of_In in Hm. unfold pawn_moves_from in Hm.
  rewrite !elem_of_app in Hm. destruct Hm as [Hm|[Hm|Hm]].
  - (* pushes *)
    destruct (on_board (forward c f) && negb (Z.testbit (occupancy b) (forward c f)))
             eqn:Hup; [|by apply elem_of_nil in Hm].
    apply andb_true_iff in Hup as [Hon Hempty]. apply negb_true_iff in Hempty.
    unfold on_board in Hon. apply andb_true_iff in Hon as [Hon _]. apply Z.leb_le in Hon.
    destruct (occupancy_split b c _ Hempty) as [Ho He].
    apply elem_of_app in Hm as [Hm|Hm].
    + by apply (pawn_arrivals_consistent c b f (forward c f) None).
    + destruct (start_rank c f && negb (Z.testbit (occupancy b) (forward c (forward c f))))
               eqn:Hst; [|by apply elem_of_nil in Hm].
      apply list_elem_of_singleton in Hm as ->.
      apply andb_true_iff in Hst as [Hst Hempty2]. apply negb_true_iff in Hempty2.
      destruct (occupancy_split b c _ Hempty2) as [Ho2 He2].
      assert (0 <= forward c (forward c f)) as Hpos.
      { unfold start_rank in Hst. destruct c; simpl in *; lia. }
      unfold consistent. simpl. done.
  - (* captures *)
    apply list_elem_of_In, in_flat_map in Hm as (t & Ht & Hm).
    apply list_elem_of_In, squares_sound in Ht as [Ht0 Ht].
    rewrite Z.land_spec in Ht. apply andb_true_iff in Ht as [_ Ht].
    apply list_elem_of_In in Hm.
    apply (pawn_arrivals_consistent c b f t (piece_on (pieces (switchColor c) b) t));
      try done.
    + destruct (Z.testbit (occupancy_of (pieces c b)) t) eqn:Hown; [|done].
      apply testbit_occupancy_of in Hown as [p1 H1].
      apply testbit_occupancy_of in Ht as [p2 H2].
      destruct (board_ok_disjoint b Hok t c p1 (switchColor c) p2 H1 H2) as [Hc _].
      by destruct c.
    + destruct (piece_on _ t) as [cp|] eqn:Hp.
      * by apply piece_on_Some.
      * by apply piece_on_None.
  - (* en passant *)
    destruct (en_passant_target b) as [s|] eqn:Hep; [|by apply elem_of_nil in Hm].
    destruct (Z.testbit (pawnAttacks c f) s) eqn:Hatt; [|by apply elem_of_nil in Hm].
    apply list_elem_of_singleton in Hm as ->.
    destruct (board_ok_en_passant b s Hok Hep) as [Hempty Hpawn].
    destruct (occupancy_split b c _ Hempty) as [Ho He].
    pose proof (testbit_nonneg _ _ Hatt). pose proof (testbit_nonneg _ _ Hpawn).
    unfold consistent, capture_square. simpl. done.
Qed.

Lemma castling_masks (c : Color) :
  Z.testbit (Z.shiftl 0x60 (base c)) (base c + 5) = true
  /\ Z.testbit (Z.shiftl 0x60 (base c)) (base c + 6) = true
  /\ Z.testbit (Z.shiftl 0x0E (base c)) (base c + 2) = true
  /\ Z.testbit (Z.shiftl 0x0E (base c)) (base c + 3) = true.
Proof. by destruct c. Qed.

Lemma castling_moves_consistent (c : Color) (b : Board) (attacks : u64) (m : Move) :
  board_ok b = true -> m ∈ castling_moves c b attacks -> consistent c b m.
Proof.
  intros Hok. unfold castling_moves.
  destruct (board_ok_castling b c Hok) as [Hk Hq].
  destruct (castling_masks c) as (M5 & M6 & M2 & M3).
  pose proof (base_nonneg c) as Hbase.
  rewrite elem_of_app. intros [Hm|Hm].
  - destruct (Z.testbit (castling b) (right_k c)) eqn:Hr; [|by apply elem_of_nil in Hm].
    destruct (Z.land (occupancy b) (Z.shiftl 96 (base c)) =? 0) eqn:Hocc;
      [|by apply elem_of_nil in Hm].
    destruct (Z.land attacks (Z.shiftl 112 (base c)) =? 0); [|by apply elem_of_nil in Hm].
    simpl in Hm. apply list_elem_of_singleton in Hm as ->.
    apply Z.eqb_eq in Hocc. destruct (Hk eq_refl) as [Hking Hrook].
    pose proof (land_zero_testbit _ _ _ Hocc M5) as H5.
    pose proof (land_zero_testbit _ _ _ Hocc M6) as H6.
    destruct (occupancy_split b c _ H6) as [Ho He].
    unfold consistent. simpl. repeat split; try done; lia.
  - destruct (Z.testbit (castling b) (right_q c)) eqn:Hr; [|by apply elem_of_nil in Hm].
    destruct (Z.land (occupancy b) (Z.shiftl 14 (base c)) =? 0) eqn:Hocc;
      [|by apply elem_of_nil in Hm].
    destruct (Z.land attacks (Z.shiftl 28 (base c)) =? 0); [|by apply elem_of_nil in Hm].
    simpl in Hm. apply list_elem_of_singleton in Hm as ->.
    apply Z.eqb_eq in Hocc. destruct (Hq eq_refl) as [Hking Hrook].
    pose proof (land_zero_testbit _ _ _ Hocc M2) as H2.
    pose proof (land_zero_testbit _ _ _ Hocc M3) as H3.
    destruct (occupancy_split b c _ H2) as [Ho He].
    unfold consistent. simpl. repeat split; try done; lia.
Qed.

(** *** The bitboards after a move *)

Lemma castle_rook_squares (c : Color) (m : Move) (rf rt : Z) :
  castle_rook c m = Some (rf, rt) ->
  0 <= rf /\ 0 <= rt
  /\ ((tag m = castle_king /\ rf = base c + 7 /\ rt = base c + 5)
      \/ (tag m = castle_queen /\ rf = base c /\ rt = base c + 3)).
Proof.
  pose proof (base_nonneg c). unfold castle_rook.
  destruct (tag m); intros [= <- <-]; repeat split; try lia; tauto.
Qed.

Lemma testbit_set_true (x s k : Z) :
  0 <= s -> Z.testbit (set_bit x s) k = true -> Z.testbit x k = true \/ k = s.
Proof.
  intros Hs. rewrite testbit_set_bit by done. intros [?|?%Z.eqb_eq]%orb_true_iff; tauto.
Qed.

Lemma testbit_clear_true (x s k : Z) :
  0 <= s -> Z.testbit (clear_bit x s) k = true -> Z.testbit x k = true /\ k <> s.
Proof.
  intros Hs. rewrite testbit_clear_bit by done.
  intros [? ?%negb_true_iff%Z.eqb_neq]%andb_true_iff; tauto.
Qed.

Lemma testbit_set_keep (x s k : Z) :
  0 <= s -> Z.testbit x k = true -> Z.testbit (set_bit x s) k = true.
Proof. intros Hs Hx. rewrite testbit_set_bit by done. by rewrite Hx. Qed.

Lemma testbit_clear_keep (x s k : Z) :
  0 <= s -> k <> s -> Z.testbit x k = true -> Z.testbit (clear_bit x s) k = true.
Proof.
  intros Hs Hk Hx. rewrite testbit_clear_bit by done. rewrite Hx.
  apply Z.eqb_neq in Hk. by rewrite Hk.
Qed.

Ltac bits_in Hb :=
  repeat match type of Hb with
         | Z.testbit (set_bit _ _) _ = true =>
             apply testbit_set_true in Hb as [Hb| ->]; [ | | lia]
         | Z.testbit (clear_bit _ _) _ = true =>
             apply testbit_clear_true in Hb as [Hb _]; [|lia]
         end.

Lemma place_mover_new (c : Color) (m : Move) (own : Pieces) (pt : PieceType) (s : Z) :
  0 <= from m -> 0 <= to m ->
  Z.testbit (bb (place_mover c m own) pt) s = true ->
  Z.testbit (bb own pt) s = true \/ fresh c m pt s.
Proof.
  intros Hf Ht. unfold place_mover, fresh.
  generalize (landing m) (piece m). intros L P.
  destruct (castle_rook c m) as [[rf rt]|] eqn:Ec.
  - destruct (castle_rook_squares c m rf rt Ec) as (Hrf & Hrt & _).
    rewrite !bb_upd. intros Hb.
    repeat case_decide; subst;
      bits_in Hb; naive_solver.
  - rewrite !bb_upd. intros Hb.
    repeat case_decide; subst;
      bits_in Hb; naive_solver.
Qed.

Lemma place_mover_kept (c : Color) (m : Move) (own : Pieces) (pt : PieceType) (s : Z) :
  0 <= from m -> 0 <= to m ->
  Z.testbit (bb own pt) s = true ->
  ~ (pt = piece m /\ s = from m) ->
  (forall rf rt, castle_rook c m = Some (rf, rt) -> ~ (pt = rook /\ s = rf)) ->
  Z.testbit (bb (place_mover c m own) pt) s = true.
Proof.
  intros Hf Ht Hb Hp Hr. unfold place_mover.
  revert Hp. generalize (landing m) (piece m). intros L P Hp.
  destruct (castle_rook c m) as [[rf rt]|] eqn:Ec.
  - destruct (castle_rook_squares c m rf rt Ec) as (Hrf & Hrt & _).
    specialize (Hr rf rt eq_refl).
    rewrite !bb_upd.
    repeat case_decide; subst;
      repeat (first [ apply testbit_set_keep; [lia|]
                    | apply testbit_clear_keep; [lia|intros ->; tauto|] ]);
      done.
  - rewrite !bb_upd.
    repeat case_decide; subst;
      repeat (first [ apply testbit_set_keep; [lia|]
                    | apply testbit_clear_keep; [lia|intros ->; tauto|] ]);
      done.
Qed.

Lemma place_mover_set (c : Color) (m : Move) (own : Pieces) :
  0 <= to m -> (forall rf rt, castle_rook c m = Some (rf, rt) -> landing m <> rook) ->
  Z.testbit (bb (place_mover c m own) (landing m)) (to m) = true.
Proof.
  intros Ht Hr. unfold place_mover.
  destruct (castle_rook c m) as [[rf rt]|] eqn:Ec.
  - specialize (Hr rf rt eq_refl).
    rewrite bb_upd_other by done. rewrite bb_upd_same, testbit_set_bit by done.
    rewrite Z.eqb_refl. apply orb_true_r.
  - rewrite bb_upd_same, testbit_set_bit by done.
    rewrite Z.eqb_refl. apply orb_true_r.
Qed.

Lemma remove_captured_new (c : Color) (m : Move) (cap : option PieceType)
      (enemy : Pieces) (pt : PieceType) (s : Z) :
  0 <= capture_square c m ->
  Z.testbit (bb (remove_captured c m cap enemy) pt) s = true ->
  Z.testbit (bb enemy pt) s = true /\ ~ (cap = Some pt /\ s = capture_square c m).
Proof.
  intros Hs. unfold remove_captured. destruct cap as [cp|].
  - rewrite bb_upd. case_decide; subst.
    + intros [? ?]%testbit_clear_true; [|done]. split; [done|]. intros [_ ?]. done.
    + intros ?. split; [done|]. intros [[= ?] _]. done.
  - intros ?. split; [done|]. intros [[=] _].
Qed.

Lemma remove_captured_kept (c : Color) (m : Move) (cap : option PieceType)
      (enemy : Pieces) (pt : PieceType) (s : Z) :
  0 <= capture_square c m ->
  Z.testbit (bb enemy pt) s = true ->
  ~ (cap = Some pt /\ s = capture_square c m) ->
  Z.testbit (bb (remove_captured c m cap enemy) pt) s = true.
Proof.
  intros Hs Hb Hn. unfold remove_captured. destruct cap as [cp|]; [|done].
  rewrite bb_upd. case_decide; subst; [|done].
  apply testbit_clear_keep; [done| |done]. intros ->. tauto.
Qed.

Section AfterMove.
Context `{ZobristKeys}.

Lemma pieces_move_c (c : Color) (m : Move) (b : Board) :
  pieces c (move_c c m b) = place_mover c m (pieces c b)
  /\ pieces (switchColor c) (move_c c m b)
     = remove_captured c m (captured m) (pieces (switchColor c) b).
Proof. by destruct c. Qed.

Lemma consistent_capture_square (c : Color) (b : Board) (m : Move) :
  consistent c b m -> 0 <= capture_square c m.
Proof.
  intros (_ & Ht & _ & _ & Hcap & _ & Htag).
  unfold capture_square in *. destruct (tag m); try done.
  destruct Htag as (_ & Hc & _). rewrite Hc in Hcap. tauto.
Qed.

(** Every piece on the board after a move either stood there before and
    was not captured, or is one of the pieces the move has put down. *)
Lemma move_c_at_sq (c : Color) (m : Move) (b : Board) (c' : Color) (pt : PieceType) (s : Z) :
  consistent c b m ->
  at_sq (move_c c m b) c' pt s = true ->
  (at_sq b c' pt s = true
   /\ (c' = switchColor c -> ~ (captured m = Some pt /\ s = capture_square c m)))
  \/ (c' = c /\ fresh c m pt s).
Proof.
  intros Hc. pose proof (consistent_capture_square c b m Hc) as Hsq.
  destruct Hc as (Hf & Ht & _).
  destruct (pieces_move_c c m b) as [Hown Hen].
  unfold at_sq. destruct (decide (c' = c)) as [->|Hne].
  - rewrite Hown. intros [Hb|Hb]%place_mover_new; try done.
    + left. split; [done|]. intros Hcc. by destruct c.
    + by right.
  - assert (c' = switchColor c) as -> by (by destruct c, c').
    rewrite Hen. intros [Hb Hn]%remove_captured_new; [|done].
    left. by split.
Qed.

End AfterMove.

(** *** Well-formedness is kept by consistent moves *)

Section Preserved.
Context `{ZobristKeys}.

Lemma move_c_at_sq_kept (c : Color) (m : Move) (b : Board) (c' : Color)
      (pt : PieceType) (s : Z) :
  consistent c b m ->
  at_sq b c' pt s = true ->
  (c' = c ->
   ~ (pt = piece m /\ s = from m)
   /\ (forall rf rt, castle_rook c m = Some (rf, rt) -> ~ (pt = rook /\ s = rf))) ->
  (c' = switchColor c -> ~ (captured m = Some pt /\ s = capture_square c m)) ->
  at_sq (move_c c m b) c' pt s = true.
Proof.
  intros Hc Hb Hown Hen. pose proof (consistent_capture_square c b m Hc) as Hsq.
  destruct Hc as (Hf & Ht & _).
  destruct (pieces_move_c c m b) as [Eown Een].
  unfold at_sq in *. destruct (decide (c' = c)) as [->|Hne].
  - rewrite Eown. destruct (Hown eq_refl). by apply place_mover_kept.
  - assert (c' = switchColor c) as -> by (by destruct c, c').
    rewrite Een. apply remove_captured_kept; auto.
Qed.

Lemma move_c_at_sq_set (c : Color) (m : Move) (b : Board) :
  consistent c b m -> at_sq (move_c c m b) c (landing m) (to m) = true.
Proof.
  intros (_ & Ht & _ & _ & _ & _ & Htag).
  destruct (pieces_move_c c m b) as [Eown _]. unfold at_sq. rewrite Eown.
  apply place_mover_set; [done|].
  intros rf rt Hr. unfold castle_rook, landing in *.
  destruct (tag m); try done; destruct Htag as (-> & _ & -> & _); done.
Qed.

(** A piece the move has put down is the only piece on its square. *)
Lemma fresh_unique (c : Color) (b : Board) (m : Move) (p1 : PieceType) (s : Z)
      (c2 : Color) (p2 : PieceType) :
  disjoint b -> consistent c b m ->
  fresh c m p1 s -> at_sq (move_c c m b) c2 p2 s = true ->
  c2 = c /\ p2 = p1.
Proof.
  intros Hd Hc Hfresh H2.
  destruct (move_c_at_sq c m b c2 p2 s Hc H2) as [[Hold Hncap]|[-> Hfresh2]].
  - exfalso.
    destruct Hc as (Hf & Ht & Hfrom & Hown & Hcap & _ & Htag).
    destruct Hfresh as [[-> ->]|(rf & Hr & ->)].
    + destruct (decide (c2 = c)) as [->|Hne].
      * apply (occupancy_of_false _ _ p2) in Hown. unfold at_sq in Hold. congruence.
      * assert (c2 = switchColor c) as -> by (by destruct c, c2).
        specialize (Hncap eq_refl).
        destruct (captured m) as [cp|] eqn:Ecap.
        -- destruct Hcap as [Hcap _]. unfold capture_square in *.
           destruct (tag m) eqn:Etag;
             try (destruct (Hd _ _ _ _ _ Hold Hcap) as [_ ->]; tauto).
           destruct Htag as (_ & _ & _ & Hempty).
           apply (occupancy_false _ _ (switchColor c) p2) in Hempty. congruence.
        -- apply (occupancy_of_false _ _ p2) in Hcap. unfold at_sq in Hold. congruence.
    + destruct (castle_rook_squares c m rf s Hr) as (_ & _ & [(Et & _ & ->)|(Et & _ & ->)]);
        rewrite Et in Htag; destruct Htag as (_ & _ & _ & _ & _ & _ & Hempty);
        apply (occupancy_false _ _ c2 p2) in Hempty; congruence.
  - split; [done|].
    destruct Hc as (_ & _ & _ & _ & _ & _ & Htag).
    destruct Hfresh as [[-> ->]|(rf & Hr & ->)];
      destruct Hfresh2 as [[-> Hs]|(rf2 & Hr2 & ->)]; try done.
    + destruct (castle_rook_squares c m rf2 _ Hr2)
        as (_ & _ & [(Et & _ & Hrt)|(Et & _ & Hrt)]);
        rewrite Et in Htag; destruct Htag as (_ & _ & _ & _ & Hto & _); lia.
    + destruct (castle_rook_squares c m rf _ Hr)
        as (_ & _ & [(Et & _ & Hrt)|(Et & _ & Hrt)]);
        rewrite Et in Htag; destruct Htag as (_ & _ & _ & _ & Hto & _); lia.
Qed.

Lemma move_c_disjoint (c : Color) (b : Board) (m : Move) :
  disjoint b -> consistent c b m -> disjoint (move_c c m b).
Proof.
  intros Hd Hc s c1 p1 c2 p2 H1 H2.
  destruct (move_c_at_sq c m b c1 p1 s Hc H1) as [[Hold1 _]|[-> Hfresh1]].
  - destruct (move_c_at_sq c m b c2 p2 s Hc H2) as [[Hold2 _]|[-> Hfresh2]].
    + by apply (Hd s).
    + destruct (fresh_unique c b m p2 s c1 p1 Hd Hc Hfresh2 H1) as [-> ->]. done.
  - destruct (fresh_unique c b m p1 s c2 p2 Hd Hc Hfresh1 H2) as [-> ->]. done.
Qed.

Lemma side_move_c (c : Color) (b : Board) (m : Move) :
  side (move_c c m b) = switchColor (side b).
Proof. unfold side. destruct c; simpl; by destruct (white_turn b). Qed.

Lemma en_passant_move_c (c : Color) (b : Board) (m : Move) :
  en_passant_target (move_c c m b)
  = match tag m with double_push => Some (forward c (from m)) | _ => None end.
Proof. by destruct c. Qed.

Lemma castling_move_c (c : Color) (b : Board) (m : Move) :
  castling (move_c c m b) = rights_after c m (castling b).
Proof. by destruct c. Qed.

Lemma move_c_en_passant_ok (b : Board) (m : Move) :
  consistent (side b) b m -> en_passant_ok (move_c (side b) m b) = true.
Proof.
  intros Hc. unfold en_passant_ok. rewrite en_passant_move_c, side_move_c.
  rewrite switchColor_involutive. set (c := side b) in *.
  destruct (tag m) eqn:Etag; try done.
  pose proof Hc as (_ & _ & _ & _ & _ & _ & Htag). rewrite Etag in Htag.
  destruct Htag as (Hp & _ & Hpr & Hto & Hempty).
  apply andb_true_iff. split.
  - apply negb_true_iff.
    destruct (Z.testbit (occupancy (move_c c m b)) (forward c (from m))) eqn:Ho; [|done].
    exfalso. apply testbit_occupancy in Ho as (c' & pt & Hb).
    destruct (move_c_at_sq c m b c' pt _ Hc Hb) as [[Hold _]|[_ Hfresh]].
    + apply (occupancy_false _ _ c' pt) in Hempty. congruence.
    + destruct Hfresh as [[_ Hs]|(rf & Hr & _)].
      * rewrite Hto in Hs. destruct c; simpl in Hs; lia.
      * unfold castle_rook in Hr. by rewrite Etag in Hr.
  - rewrite <- Hto. pose proof (move_c_at_sq_set c m b Hc) as Hset.
    unfold landing in Hset. by rewrite Hpr, Hp in Hset.
Qed.

Lemma right_nonneg (c : Color) : 0 <= right_k c /\ 0 <= right_q c.
Proof. by destruct c. Qed.

Lemma rights_distinct (c : Color) :
  right_k c <> right_q c
  /\ right_k c <> right_k (switchColor c) /\ right_k c <> right_q (switchColor c)
  /\ right_q c <> right_k (switchColor c) /\ right_q c <> right_q (switchColor c).
Proof. by destruct c. Qed.

(** A right that is held after the move was held before it, and the move
    is none of those that lose it. *)
Lemma rights_after_held (c : Color) (m : Move) (r i : Z) :
  Z.testbit (rights_after c m r) i = true ->
  Z.testbit r i = true
  /\ (piece m = king -> i <> right_k c /\ i <> right_q c)
  /\ (piece m = rook -> from m = base c + 7 -> i <> right_k c)
  /\ (piece m = rook -> from m = base c -> i <> right_q c)
  /\ (captured m = Some king ->
      i <> right_k (switchColor c) /\ i <> right_q (switchColor c))
  /\ (captured m = Some rook -> to m = base (switchColor c) + 7 ->
      i <> right_k (switchColor c))
  /\ (captured m = Some rook -> to m = base (switchColor c) ->
      i <> right_q (switchColor c)).
Proof.
  destruct (right_nonneg c) as [Hk Hq].
  destruct (right_nonneg (switchColor c)) as [Hk' Hq'].
  unfold rights_after. intros Hb.
  destruct (piece m) eqn:Ep; destruct (captured m) as [[]|] eqn:Ecap;
    repeat match type of Hb with
           | context [if ?t then _ else _] => destruct t eqn:?
           end;
    repeat match goal with
           | Hx : Z.testbit (clear_bit _ _) _ = true |- _ =>
               apply testbit_clear_true in Hx as [Hx ?]; [|done]
           | Hx : (_ =? _) = true |- _ => apply Z.eqb_eq in Hx
           | Hx : (_ =? _) = false |- _ => apply Z.eqb_neq in Hx
           end;
    repeat split; try done; try congruence; try lia;
    intros; try congruence; try lia; split; congruence.
Qed.

End Preserved.

Section Reachable.
Context `{ZobristKeys}.

Lemma consistent_castle_king (c : Color) (b : Board) (m : Move) (rf rt : Z) :
  consistent c b m -> castle_rook c m = Some (rf, rt) -> piece m = king.
Proof.
  intros (_ & _ & _ & _ & _ & _ & Htag). unfold castle_rook.
  destruct (tag m); try done; by destruct Htag as (-> & _).
Qed.

Lemma consistent_capture_to (c : Color) (b : Board) (m : Move) (cp : PieceType) :
  consistent c b m -> captured m = Some cp -> cp <> pawn -> capture_square c m = to m.
Proof.
  intros (_ & _ & _ & _ & _ & _ & Htag) Hcap Hcp. unfold capture_square.
  destruct (tag m); try done. destruct Htag as (_ & Hc & _). congruence.
Qed.

(** A king or a rook on its home square, of a side that holds a right after
    the move, stood there before and has been neither moved nor captured. *)
Lemma home_piece_kept (c : Color) (b : Board) (m : Move) (c' : Color)
      (pt : PieceType) (s i : Z) :
  consistent c b m ->
  Z.testbit (rights_after c m (castling b)) i = true ->
  at_sq b c' pt s = true ->
  (pt = king /\ (i = right_k c' \/ i = right_q c'))
  \/ (pt = rook /\ s = base c' + 7 /\ i = right_k c')
  \/ (pt = rook /\ s = base c' /\ i = right_q c') ->
  at_sq (move_c c m b) c' pt s = true.
Proof.
  intros Hc Hr Hb Hcase.
  destruct (rights_after_held c m _ i Hr) as (_ & Hking & Hrk & Hrq & Hcking & Hcrk & Hcrq).
  apply move_c_at_sq_kept; try done.
  - intros ->. split.
    + intros [Hpt Hs].
      destruct Hcase as [[Hk Hi]|[(Hk & Hs' & Hi)|(Hk & Hs' & Hi)]].
      * assert (piece m = king) as Hpk by congruence.
        destruct (Hking Hpk). tauto.
      * assert (piece m = rook) as Hpr by congruence.
        apply (Hrk Hpr); [lia|done].
      * assert (piece m = rook) as Hpr by congruence.
        apply (Hrq Hpr); [lia|done].
    + intros rf rt Hcr [Hpt Hs].
      pose proof (consistent_castle_king c b m _ _ Hc Hcr) as Hpk.
      destruct (Hking Hpk).
      destruct Hcase as [[Hk _]|[(_ & _ & Hi)|(_ & _ & Hi)]]; congruence.
  - intros -> [Hcap Hs].
    destruct Hcase as [[Hk Hi]|[(Hk & Hs' & Hi)|(Hk & Hs' & Hi)]]; subst pt.
    + destruct (Hcking Hcap). tauto.
    + rewrite (consistent_capture_to c b m rook Hc Hcap) in Hs by done.
      apply (Hcrk Hcap); [lia|done].
    + rewrite (consistent_capture_to c b m rook Hc Hcap) in Hs by done.
      apply (Hcrq Hcap); [lia|done].
Qed.

Lemma move_c_castling_ok (c : Color) (b : Board) (m : Move) :
  board_ok b = true -> consistent c b m -> castling_ok (move_c c m b) = true.
Proof.
  intros Hok Hc.
  assert (forall c',
             (negb (Z.testbit (castling (move_c c m b)) (right_k c'))
              || (at_sq (move_c c m b) c' king (base c' + 4)
                  && at_sq (move_c c m b) c' rook (base c' + 7)))
             && (negb (Z.testbit (castling (move_c c m b)) (right_q c'))
                 || (at_sq (move_c c m b) c' king (base c' + 4)
                     && at_sq (move_c c m b) c' rook (base c' + 0))) = true) as Hall.
  { intros c'. rewrite castling_move_c.
    destruct (board_ok_castling b c' Hok) as [Hk Hq].
    apply andb_true_iff. split.
    - destruct (Z.testbit (rights_after c m (castling b)) (right_k c')) eqn:Hr; [|done].
      destruct (rights_after_held c m _ _ Hr) as [Hold _].
      destruct (Hk Hold) as [Hking Hrook]. simpl.
      rewrite (home_piece_kept c b m c' king _ _ Hc Hr Hking) by tauto.
      rewrite (home_piece_kept c b m c' rook _ _ Hc Hr Hrook) by tauto. done.
    - destruct (Z.testbit (rights_after c m (castling b)) (right_q c')) eqn:Hr; [|done].
      destruct (rights_after_held c m _ _ Hr) as [Hold _].
      destruct (Hq Hold) as [Hking Hrook]. simpl.
      rewrite (home_piece_kept c b m c' king _ _ Hc Hr Hking) by tauto.
      rewrite Z.add_0_r.
      rewrite (home_piece_kept c b m c' rook _ _ Hc Hr Hrook) by tauto. done. }
  unfold castling_ok. simpl.
  pose proof (Hall white) as Hw. pose proof (Hall black) as Hb.
  simpl in Hw, Hb. rewrite Hw. replace (56 + 0) with 56 in Hb by done. rewrite Hb. done.
Qed.

(** Moves that are consistent with a well-formed position lead to
    well-formed positions. *)
Lemma move_c_board_ok (b : Board) (m : Move) :
  board_ok b = true -> consistent (side b) b m -> board_ok (move_c (side b) m b) = true.
Proof.
  intros Hok Hc. unfold board_ok. rewrite !andb_true_iff. repeat split.
  - apply disjoint_pieces_complete, move_c_disjoint; [|done].
    by apply board_ok_disjoint.
  - by apply move_c_en_passant_ok.
  - by apply move_c_castling_ok.
Qed.

(** Every pseudolegal move of the side to move is consistent with a
    well-formed position. *)
Lemma pseudolegal_consistent (b : Board) (m : Move) :
  board_ok b = true -> m ∈ pseudolegal (side b) b -> consistent (side b) b m.
Proof.
  intros Hok. unfold pseudolegal, pseudolegal_moves. simpl.
  destruct (kings (pieces (side b) b) =? 0); simpl; [by intros ?%elem_of_nil|].
  rewrite !elem_of_app. intros [[[[[Hm|Hm]|Hm]|Hm]|Hm]|Hm].
  - by apply pawn_moves_consistent.
  - by apply piece_moves_consistent in Hm.
  - unfold king_moves in Hm. apply elem_of_app in Hm as [Hm|Hm].
    + by apply piece_moves_consistent in Hm.
    + by apply castling_moves_consistent in Hm.
  - by apply piece_moves_consistent in Hm.
  - by apply piece_moves_consistent in Hm.
  - by apply piece_moves_consistent in Hm.
Qed.

(** The round trip for every pseudolegal move of the side to move. *)
Lemma undo_move_pseudolegal (b : Board) (m : Move) :
  board_ok b = true -> m ∈ pseudolegal (side b) b ->
  undo_m m (move_m m b) = b /\ undo_c (side b) m (move_c (side b) m b) = b.
Proof.
  intros Hok Hm. pose proof (pseudolegal_consistent b m Hok Hm) as Hc.
  unfold undo_m, move_m. rewrite side_move_c, switchColor_involutive.
  split; by apply undo_c_move_c.
Qed.

Lemma legal_moves_pseudolegal (b : Board) (m : Move) :
  board_ok b = true -> m ∈ legal_moves b -> m ∈ pseudolegal (side b) b.
Proof.
  intros Hok. unfold legal_moves.
  destruct (generate_moves_spec (side b) [] b process_start) as (l & -> & Hp).
  { intros x Hx. rewrite pseudolegal_eq in Hx.
    by apply (undo_move_pseudolegal b x Hok). }
  rewrite pseudolegal_eq in Hp. rewrite Hp. by intros [_ ?]%list_elem_of_filter.
Qed.

Lemma reachable_board_ok (b : Board) : reachable b -> board_ok b = true.
Proof.
  induction 1 as [b Hok|b m Hr IH Hm]; [done|].
  unfold move_m. apply move_c_board_ok; [done|].
  apply pseudolegal_consistent; [done|]. by apply legal_moves_pseudolegal.
Qed.

End Reachable.

(** *** The claims about the board *)

(** C2.  For every legal move from every reachable position, applying the
    move and undoing it gives back the board: the piece bitboards, the
    castling rights, the en-passant target and the Zobrist key, and every
    other field; both for [move]/[undo] as the legality filter calls them
    and for [move<color>]/[undo<color>] as [perft] calls them. *)
Theorem move_undo_round_trip `{ZobristKeys} (b : Board) (m : Move) :
  reachable b -> m ∈ legal_moves b ->
  undo_c (side b) m (move_c (side b) m b) = b
  /\ let b' := undo_m m (move_m m b) in
     b' = b
     /\ white_pieces b' = white_pieces b /\ black_pieces b' = black_pieces b
     /\ castling b' = castling b
     /\ en_passant_target b' = en_passant_target b
     /\ key b' = key b.
Proof.
  intros Hr Hm. pose proof (reachable_board_ok b Hr) as Hok.
  destruct (undo_move_pseudolegal b m Hok (legal_moves_pseudolegal b m Hok Hm)) as [Hu Ht].
  split; [done|]. simpl. rewrite Hu. done.
Qed.

(** C3 at its failing input: the run of [main] on the command line
    [-perft 1 startpos] runs [initializePrecomputedStuff] twice. *)
Theorem main_perft_initialises_twice :
  match @main _ _ (@api fixed_keys) (@front_end fixed_keys)
              perft_command_line process_start with
  | Some (_, p) => init_runs p
  | None => 0%nat
  end = 2%nat.
Proof. vm_compute. reflexivity. Qed.

(** C8.  From the starting position, [perft] returns 20 at depth 1, 400 at
    depth 2, 8902 at depth 3 and 197281 at depth 4. *)
Theorem perft_startpos_counts :
  perft_startpos 1 = Some 20
  /\ perft_startpos 2 = Some 400
  /\ perft_startpos 3 = Some 8902
  /\ perft_startpos 4 = Some 197281.
Proof. vm_compute. done. Qed.

(** C10 as stated fails: with no king on the board and one entry in the
    list, [pseudolegal_moves] returns 0 and the list still has size 1. *)
Lemma pseudolegal_moves_returns_zero_not_size :
  let '(n, l, _) := @pseudolegal_moves _ _ (@api fixed_keys) white [e2e4]
                                       startpos_without_white_king process_start in
  l = [e2e4] /\ n = 0 /\ n <> size l.
Proof. vm_compute. repeat split; discriminate. Qed.

(** *** The hypotheses of the generator's theorems hold of the chess board *)

Lemma startpos_ok : board_ok (@startpos fixed_keys) = true.
Proof. vm_compute. reflexivity. Qed.

Lemma chess_trial_undone `{ZobristKeys} (c : Color) (b : Board) :
  board_ok b = true /\ c = side b ->
  forall m, m ∈ pseudolegal c b -> undo m (move m b) = b.
Proof. intros [Hok ->] m Hm. by apply (undo_move_pseudolegal b m Hok). Qed.

Lemma chess_played_undone `{ZobristKeys} (c : Color) (b : Board) :
  board_ok b = true /\ c = side b ->
  forall m, m ∈ pseudolegal c b -> leaves_in_check c b m = false ->
    (board_ok (move_t c m b) = true /\ switchColor c = side (move_t c m b))
    /\ undo_t c m (move_t c m b) = b.
Proof.
  intros [Hok ->] m Hm _. pose proof (pseudolegal_consistent b m Hok Hm) as Hc.
  simpl. split; [split|].
  - by apply move_c_board_ok.
  - by rewrite side_move_c.
  - by apply undo_c_move_c.
Qed.

(** On every well-formed position, for the side to move: [generate_moves]
    returns the pseudolegal moves that pass the check test and hands the
    board back, and [perft] hands the board back at every depth. *)
Lemma chess_generate_moves_filters `{ZobristKeys} (b : Board) (p : Process Move) :
  board_ok b = true ->
  exists legal : MoveList Move,
    generate_moves (side b) [] b p = Some (size legal, legal, b, guarded_init p)
    /\ legal ≡ₚ filter (fun m => leaves_in_check (side b) b m = false)
                       (pseudolegal (side b) b).
Proof.
  intros Hok.
  destruct (generate_moves_spec (side b) [] b p) as (l & Hl & Hp).
  { rewrite pseudolegal_eq. by apply chess_trial_undone. }
  rewrite pseudolegal_eq in Hp. by exists l.
Qed.

Lemma chess_perft_restores `{ZobristKeys} (b : Board) (depth : Z) (print_moves : bool)
      (p : Process Move) :
  board_ok b = true ->
  exists n p', perft (perft_fuel depth) (side b) print_moves b depth p = Some (n, b, p').
Proof.
  intros Hok.
  apply (perft_restores (fun c b => board_ok b = true /\ c = side b)
                        chess_trial_undone chess_played_undone);
    [done|unfold perft_fuel; lia|unfold perft_fuel; lia].
Qed.

(** From here on the keys are the fixed table. *)
#[local] Existing Instance fixed_keys.

Lemma generate_moves_legal_witness :
  (forall m, m ∈ pseudolegal white startpos -> undo m (move m startpos) = startpos)
  /\ exists legal : MoveList Move,
      generate_moves white [] startpos process_start
      = Some (size legal, legal, startpos, guarded_init process_start)
      /\ legal ≡ₚ filter (fun m => leaves_in_check white startpos m = false)
                         (pseudolegal white startpos)
      /\ (forall m, m ∈ legal ->
                    m ∈ pseudolegal white startpos
                    /\ leaves_in_check white startpos m = false)
      /\ (forall m, m ∈ pseudolegal white startpos -> m ∉ legal ->
                    leaves_in_check white startpos m = true).
Proof.
  assert (forall m, m ∈ pseudolegal white startpos ->
                    undo m (move m startpos) = startpos) as Hundo.
  { apply chess_trial_undone. split; [exact startpos_ok|reflexivity]. }
  split; [exact Hundo|].
  exact (generate_moves_legal white startpos process_start Hundo).
Defined.

(** *** The theorems at the starting position *)

Lemma e2e4_legal : e2e4 ∈ legal_moves startpos.
Proof. apply list_elem_of_In. vm_compute. tauto. Qed.

Lemma move_undo_round_trip_witness :
  (reachable startpos /\ e2e4 ∈ legal_moves startpos)
  /\ undo_c (side startpos) e2e4 (move_c (side startpos) e2e4 startpos) = startpos
  /\ undo_m e2e4 (move_m e2e4 startpos) = startpos
  /\ white_pieces (undo_m e2e4 (move_m e2e4 startpos)) = white_pieces startpos
  /\ black_pieces (undo_m e2e4 (move_m e2e4 startpos)) = black_pieces startpos
  /\ castling (undo_m e2e4 (move_m e2e4 startpos)) = castling startpos
  /\ en_passant_target (undo_m e2e4 (move_m e2e4 startpos)) = en_passant_target startpos
  /\ key (undo_m e2e4 (move_m e2e4 startpos)) = key startpos.
Proof.
  assert (reachable startpos) as Hr by (apply reachable_root; exact startpos_ok).
  split; [split; [exact Hr|exact e2e4_legal]|].
  exact (move_undo_round_trip startpos e2e4 Hr e2e4_legal).
Defined.

Lemma no_king_no_moves_witness :
  getKing startpos_without_white_king white = 0
  /\ (forall ml, pseudolegal_moves white ml startpos_without_white_king process_start
                 = (0, ml, guarded_init process_start))
  /\ generate_moves white [] startpos_without_white_king process_start
     = Some (0, [], startpos_without_white_king, guarded_init process_start).
Proof.
  split; [reflexivity|].
  exact (no_king_no_moves white startpos_without_white_king process_start eq_refl).
Defined.

Lemma perft_leaf_witness :
  1 <= 1
  /\ exists legal board' p',
      generate_moves white [] startpos process_start = Some (size legal, legal, board', p')
      /\ (forall rec, perft_call rec white false startpos 1 process_start
                      = Some (size legal, board', p'))
      /\ (forall fuel, perft (S fuel) white false startpos 1 process_start
                       = Some (size legal, board', p')).
Proof.
  split; [lia|].
  apply (perft_leaf white false startpos 1 process_start). lia.
Defined.

Lemma perft_restores_board_witness :
  (board_ok startpos = true /\ white = side startpos)
  /\ exists n p', perft (perft_fuel 3) white false startpos 3 process_start
                  = Some (n, startpos, p').
Proof.
  split; [split; [exact startpos_ok|reflexivity]|].
  apply (perft_restores_board (fun c b => board_ok b = true /\ c = side b)
                              chess_trial_undone chess_played_undone
                              3 white false startpos process_start).
  split; [exact startpos_ok|reflexivity].
Defined.

Lemma generate_moves_restores_board_witness :
  (forall m, m ∈ (pseudolegal_moves white [] startpos process_start).1.2 ->
             undo m (move m startpos) = startpos)
  /\ (forall fuel i l b m,
         l !! i = Some m ->
         filter_loop (S fuel) white i l b
         = filter_loop fuel white
                       (if leaves_in_check white b m then i else S i)
                       (if leaves_in_check white b m then remove i l else l)
                       (undo m (move m b)))
  /\ exists n l p', generate_moves white [] startpos process_start = Some (n, l, startpos, p').
Proof.
  assert (forall m, m ∈ (pseudolegal_moves white [] startpos process_start).1.2 ->
                    undo m (move m startpos) = startpos) as Hundo.
  { apply (chess_trial_undone white startpos). split; [exact startpos_ok|reflexivity]. }
  split; [exact Hundo|].
  exact (generate_moves_restores_board white [] startpos process_start Hundo).
Defined.

Lemma generate_moves_twice_witness :
  (forall m, m ∈ pseudolegal white startpos -> undo m (move m startpos) = startpos)
  /\ exists n1 l1 board1 p1 n2 l2 board2 p2,
      generate_moves white [] startpos process_start = Some (n1, l1, board1, p1)
      /\ generate_moves white [] board1 p1 = Some (n2, l2, board2, p2)
      /\ l2 = l1
      /\ (forall m, m ∈ l1 <-> m ∈ l2).
Proof.
  assert (forall m, m ∈ pseudolegal white startpos ->
                    undo m (move m startpos) = startpos) as Hundo.
  { apply chess_trial_undone. split; [exact startpos_ok|reflexivity]. }
  split; [exact Hundo|].
  exact (generate_moves_twice white startpos process_start Hundo).
Defined.

Lemma chess_appends :
  (forall c ml b, leapers_pawn c ml b = ml ++ leapers_pawn c [] b)
  /\ (forall c ml b, leapers_knight c ml b = ml ++ leapers_knight c [] b)
  /\ (forall c ml b a, leapers_king c ml b a = ml ++ leapers_king c [] b a)
  /\ (forall pt c ml b,
         sliders_generateMoves pt c ml b = ml ++ sliders_generateMoves pt c [] b).
Proof. repeat split; reflexivity. Qed.

Lemma move_lists_are_appended_to_witness :
  ((forall c ml b, leapers_pawn c ml b = ml ++ leapers_pawn c [] b)
   /\ (forall c ml b, leapers_knight c ml b = ml ++ leapers_knight c [] b)
   /\ (forall c ml b a, leapers_king c ml b a = ml ++ leapers_king c [] b a)
   /\ (forall pt c ml b,
          sliders_generateMoves pt c ml b = ml ++ sliders_generateMoves pt c [] b))
  /\ let '(n, ml', _) := pseudolegal_moves white [e2e4] startpos process_start in
     ml' = [e2e4] ++ pseudolegal white startpos
     /\ (getKing startpos white <> 0 -> n = size ml')
     /\ (getKing startpos white = 0 -> n = 0 /\ ml' = [e2e4])
     /\ (exists l board',
            generate_moves white [e2e4] startpos process_start
            = Some (size l, l, board', guarded_init process_start))
     /\ ((forall m, m ∈ [e2e4] ++ pseudolegal white startpos ->
                    undo m (move m startpos) = startpos) ->
         exists l,
           generate_moves white [e2e4] startpos process_start
           = Some (size l, l, startpos, guarded_init process_start)
           /\ l ≡ₚ filter (fun m => leaves_in_check white startpos m = false)
                          ([e2e4] ++ pseudolegal white startpos)).
Proof.
  split; [exact chess_appends|].
  destruct chess_appends as (Hp & Hn & Hk & Hs).
  exact (move_lists_are_appended_to Hp Hn Hk Hs white [e2e4] startpos process_start).
Defined.

End ChessFacts.

(** * Further facts about the generator, perft and main *)

Section GeneratorExtras.
Context {Board Move : Type} `{BoardApi Board Move}.

Lemma remove_submseteq (i : nat) (l : MoveList Move) (m : Move) :
  l !! i = Some m -> remove i l ⊆+ l.
Proof.
  intros Hm.
  assert (i < length l)%nat as Hi by (eapply lookup_lt_Some; eauto).
  destruct (remove_middle (take i l) (drop (S i) l) m) as (r & Hr & Hp).
  rewrite length_take_le in Hr by lia.
  rewrite take_drop_middle in Hr by done.
  rewrite Hr. rewrite <- (take_drop_middle l i m Hm) at 2.
  apply submseteq_app; [done|]. rewrite Hp. by apply submseteq_cons.
Qed.

(** The filter loop only takes entries away. *)
Lemma filter_loop_submseteq (fuel : nat) (color : Color) :
  forall (i : nat) (l l' : MoveList Move) (board board' : Board),
    filter_loop fuel color i l board = Some (l', board') -> l' ⊆+ l.
Proof.
  induction fuel as [|fuel IH]; intros i l l' board board'.
  - simpl. destruct (i <? length l)%nat; [done|]. by intros [= <- <-].
  - destruct (decide (i < length l)%nat) as [Hi|Hi].
    + destruct (lookup_lt_is_Some_2 l i Hi) as [m Hm].
      rewrite (filter_loop_step _ _ _ _ _ _ Hm).
      destruct (leaves_in_check color board m); intros Hl.
      * etrans; [by eapply IH|]. by eapply remove_submseteq.
      * by eapply IH.
    + rewrite filter_loop_done by lia. by intros [= <- <-].
Qed.

(** X1.  Whatever [move] and [undo] do, [generate_moves] returns: the loop
    reads [move_list[i]] inside the list only and ends.  The list it leaves
    is a sub-multiset of the list [pseudolegal_moves] has left (it never
    adds or duplicates an entry), and the value returned is its size, which
    is at most the size before the filter. *)
Theorem generate_moves_only_removes (color : Color) (ml : MoveList Move)
        (board : Board) (p : Process Move) :
  exists l board',
    generate_moves color ml board p = Some (size l, l, board', guarded_init p)
    /\ l ⊆+ (pseudolegal_moves color ml board p).1.2
    /\ size l <= size (pseudolegal_moves color ml board p).1.2.
Proof.
  destruct (generate_moves_total color ml board p) as (n & l & b' & Hg & ->).
  exists l, b'. split; [done|].
  assert (l ⊆+ (pseudolegal_moves color ml board p).1.2) as Hsub.
  { revert Hg. unfold generate_moves.
    rewrite (pseudolegal_moves_split color ml board p). simpl.
    set (pl := (pseudolegal_moves color ml board process_start).1.2).
    destruct (size pl =? 0).
    - by intros [= _ <- _].
    - destruct (filter_loop (length pl) color 0 pl board) as [[l0 b0]|] eqn:Hl; [|done].
      intros [= _ <- _]. by eapply filter_loop_submseteq. }
  split; [done|]. unfold size. apply submseteq_length in Hsub. lia.
Qed.

(** X2.  With every trial application reversed by [undo], [perft] at a depth
    of at most 1 returns the number of pseudolegal moves that do not leave
    the king in check, with the board and without a recursive call. *)
Theorem perft_leaf_counts_legal (color : Color) (print_moves : bool) (board : Board)
        (depth : Z) (p : Process Move) (fuel : nat) :
  (forall m, m ∈ pseudolegal color board -> undo m (move m board) = board) ->
  depth <= 1 ->
  perft (S fuel) color print_moves board depth p
  = Some (Z.of_nat (length (filter (fun m => leaves_in_check color board m = false)
                                   (pseudolegal color board))),
          board, guarded_init p).
Proof.
  intros Hundo Hd. simpl. unfold perft_call.
  destruct (generate_moves_spec color [] board p) as (l & -> & Hp).
  { by rewrite pseudolegal_eq. }
  rewrite pseudolegal_eq in Hp.
  apply Z.leb_le in Hd. rewrite Hd. unfold size. by rewrite Hp.
Qed.

(** X3.  On a position where the king bitboard of the colour is zero,
    [perft] returns 0 at every depth, in both printing modes, and leaves the
    board as it was. *)
Theorem perft_no_king (color : Color) (print_moves : bool) (board : Board)
        (depth : Z) (p : Process Move) (fuel : nat) :
  getKing board color = 0 ->
  exists p', perft (S fuel) color print_moves board depth p = Some (0, board, p').
Proof.
  intros Hk. simpl. unfold perft_call, generate_moves, pseudolegal_moves.
  rewrite Hk. simpl.
  destruct (depth <=? 1); [by eexists|]. simpl. by eexists.
Qed.

End GeneratorExtras.

Section PerftExtras.
Context {Board Move : Type} `{BoardApi Board Move}.

Lemma for_each_related {St : Type} (R : St -> St -> Prop)
      (body1 body2 : Move -> St -> option St) (l : list Move) :
  (forall m s1 s2 s1', R s1 s2 -> body1 m s1 = Some s1' ->
                       exists s2', body2 m s2 = Some s2' /\ R s1' s2') ->
  forall s1 s2 s1',
    R s1 s2 -> for_each body1 l s1 = Some s1' ->
    exists s2', for_each body2 l s2 = Some s2' /\ R s1' s2'.
Proof.
  intros Hbody. induction l as [|m l IH]; intros s1 s2 s1' HR; simpl.
  - intros [= <-]. by exists s2.
  - destruct (body1 m s1) as [t1|] eqn:Hb1; [|done].
    destruct (Hbody m s1 s2 t1 HR Hb1) as (t2 & -> & HR').
    by apply IH.
Qed.

(** The count and the board [perft] returns depend neither on the process
    state nor on the printing mode. *)
Lemma perft_count_independent (fuel : nat) :
  forall (c : Color) (pm pm' : bool) (b : Board) (depth : Z) (p q : Process Move)
         (n : u64) (b' : Board) (p' : Process Move),
    perft fuel c pm b depth p = Some (n, b', p') ->
    exists q', perft fuel c pm' b depth q = Some (n, b', q').
Proof.
  induction fuel as [|fuel IH]; intros c pm pm' b depth p q n b' p'; [done|].
  simpl. unfold perft_call.
  destruct (generate_moves c [] b p) as [[[[n0 l] b0] p0]|] eqn:Hg; [|done].
  destruct (generate_moves_process c [] b p q _ _ _ _ Hg) as [_ ->].
  destruct (depth <=? 1); [intros [= <- <- <-]; by eexists|].
  match goal with
  | |- context [for_each ?f l (?z, b0, p0)] =>
      destruct (for_each f l (z, b0, p0)) as [[[n1 b1] p1]|] eqn:Hfe; [|done]
  end.
  intros [= <- <- <-].
  destruct (for_each_related
              (fun s1 s2 : u64 * Board * Process Move => s1.1 = s2.1)
              (perft_body (fun board p2 => perft fuel (switchColor c) false board (depth - 1) p2)
                          c pm)
              (perft_body (fun board p2 => perft fuel (switchColor c) false board (depth - 1) p2)
                          c pm')
              l) with (s1 := (0, b0, p0)) (s2 := (0, b0, guarded_init q))
                      (s1' := (n1, b1, p1))
    as ([[n2 b2] p2] & -> & HR); [|done|done|].
  { intros m [[k1 c1] r1] [[k2 c2] r2] [[k1' c1'] r1'] HR. simpl in HR.
    injection HR as <- <-. unfold perft_body.
    destruct (perft fuel (switchColor c) false (move_t c m c1) (depth - 1) r1)
      as [[[mn mb] mp]|] eqn:Hrec; [|done].
    intros [= <- <- <-].
    destruct (IH _ false false _ _ r1 r2 _ _ _ Hrec) as (mq & ->).
    eexists. split; [reflexivity|]. done. }
  simpl in HR. injection HR as <- <-. by eexists.
Qed.

(** X4.  The printing mode does not change what [perft] computes: with and
    without [print_moves] it returns the same count and the same board, or
    fails to return in both. *)
Theorem perft_print_moves_same_count (fuel : nat) (c : Color) (b : Board)
        (depth : Z) (p : Process Move) :
  (fun r : u64 * Board * Process Move => r.1) <$> perft fuel c true b depth p
  = (fun r : u64 * Board * Process Move => r.1) <$> perft fuel c false b depth p.
Proof.
  destruct (perft fuel c true b depth p) as [[[n b'] p']|] eqn:Ht.
  - destruct (perft_count_independent fuel c true false b depth p p _ _ _ Ht) as (q & ->).
    done.
  - destruct (perft fuel c false b depth p) as [[[n b'] p']|] eqn:Hf; [|done].
    destruct (perft_count_independent fuel c false true b depth p p _ _ _ Hf) as (q & Hq).
    congruence.
Qed.

Lemma cout_guarded_init (p : Process Move) : cout (guarded_init p) = cout p.
Proof. unfold guarded_init. by destruct (initialized_stuff p). Qed.

(** Without [print_moves], and at a depth of at most 1, nothing is printed. *)
Lemma perft_cout_unchanged (fuel : nat) :
  forall (c : Color) (pm : bool) (b : Board) (depth : Z) (p : Process Move)
         (n : u64) (b' : Board) (p' : Process Move),
    pm = false \/ depth <= 1 ->
    perft fuel c pm b depth p = Some (n, b', p') -> cout p' = cout p.
Proof.
  induction fuel as [|fuel IH]; intros c pm b depth p n b' p' Hcase; [done|].
  simpl. unfold perft_call.
  destruct (generate_moves c [] b p) as [[[[n0 l] b0] p0]|] eqn:Hg; [|done].
  destruct (generate_moves_process c [] b p p _ _ _ _ Hg) as [-> _].
  destruct (depth <=? 1) eqn:Hd.
  { intros [= <- <- <-]. apply cout_guarded_init. }
  apply Z.leb_gt in Hd. destruct Hcase as [->|?]; [|lia].
  destruct (for_each _ l _) as [[[n1 b1] p1]|] eqn:Hfe; [|done].
  intros [= <- <- <-].
  rewrite <- (cout_guarded_init p).
  clear Hg. revert Hfe. generalize (guarded_init p). generalize 0. generalize b0.
  induction l as [|m l IHl]; intros b2 k r; simpl.
  - by intros [= _ _ <-].
  - destruct (perft fuel (switchColor c) false (move_t c m b2) (depth - 1) r)
      as [[[mn mb] mp]|] eqn:Hrec; [|done].
    simpl. intros Hfe. rewrite (IHl _ _ _ Hfe).
    eapply IH; [by left|exact Hrec].
Qed.

(** X5.  [perft] prints nothing when [print_moves] is false, whatever the
    depth, and nothing at a depth of at most 1 even when it is true: the
    early return comes before every print. *)
Theorem perft_silent (c : Color) (print_moves : bool) (b : Board) (depth : Z)
        (p : Process Move) :
  print_moves = false \/ depth <= 1 ->
  exists n b' p',
    perft (perft_fuel depth) c print_moves b depth p = Some (n, b', p')
    /\ cout p' = cout p.
Proof.
  intros Hcase.
  destruct (perft_process (perft_fuel depth) depth c print_moves b p)
    as (n & b' & p' & Hp & _); [unfold perft_fuel; lia|unfold perft_fuel; lia|].
  exists n, b', p'. split; [done|]. by eapply perft_cout_unchanged.
Qed.

(** X6.  Every call of [perft] returns, leaves the flag set and has run the
    initialiser once if the flag was clear and not at all if it was set: so
    of any number of calls only the first initialises. *)
Theorem perft_initialises_once (c : Color) (print_moves : bool) (b : Board)
        (depth : Z) (p : Process Move) :
  exists n b' p',
    perft (perft_fuel depth) c print_moves b depth p = Some (n, b', p')
    /\ initialized_stuff p' = true
    /\ init_runs p' = if initialized_stuff p then init_runs p else S (init_runs p).
Proof.
  destruct (perft_process (perft_fuel depth) depth c print_moves b p)
    as (n & b' & p' & Hp & Hi & Hc); [unfold perft_fuel; lia|unfold perft_fuel; lia|].
  exists n, b', p'. split; [done|]. split; [done|].
  rewrite <- init_runs_guarded. unfold init_runs. by rewrite Hc.
Qed.

(** X7.  A depth of 0 or below is treated as depth 1, and [print_moves] is
    then without effect: the call returns what [perft] returns at depth 1
    without it: the size of the list [generate_moves] has left, not 1. *)
Theorem perft_below_one_as_one (c : Color) (print_moves : bool) (b : Board) (depth : Z)
        (p : Process Move) :
  depth <= 1 ->
  perft (perft_fuel depth) c print_moves b depth p = perft (perft_fuel 1) c false b 1 p.
Proof.
  intros Hd. replace (perft_fuel depth) with 1%nat by (unfold perft_fuel; lia).
  change (perft_fuel 1) with 1%nat. cbn [perft]. unfold perft_call.
  destruct (generate_moves c [] b p) as [[[[n0 l] b0] p0]|]; [|done].
  apply Z.leb_le in Hd. by rewrite Hd.
Qed.

End PerftExtras.

Section PerftDivide.
Context {Board Move : Type} `{BoardApi Board Move}.

Lemma fold_wrap64 (counts : list u64) :
  forall a, fold_left (fun a k => wrap64 (a + k)) counts (wrap64 a)
            = wrap64 (a + sum_counts counts).
Proof.
  unfold wrap64. induction counts as [|k counts IH]; intros a; simpl.
  - by rewrite Z.add_0_r.
  - rewrite Zplus_mod_idemp_l. fold (wrap64 (a + k)). unfold wrap64 at 1.
    rewrite IH. f_equal. unfold sum_counts. simpl. lia.
Qed.

Variable Inv : Color -> Board -> Prop.

Hypothesis trial_undone :
  forall c b, Inv c b ->
    forall m, m ∈ pseudolegal c b -> undo m (move m b) = b.

Hypothesis played_undone :
  forall c b, Inv c b ->
    forall m, m ∈ pseudolegal c b -> leaves_in_check c b m = false ->
      Inv (switchColor c) (move_t c m b) /\ undo_t c m (move_t c m b) = b.

(** The loop of [perft] over a list of moves that can be played and undone:
    it adds the subtree counts to [nodes], modulo 2^64, restores the board
    and, with [print_moves], prints one line by move. *)
Lemma perft_loop (c : Color) (pm : bool) (b : Board) (depth : Z) :
  1 < depth ->
  forall l : list Move,
    (forall m, m ∈ l ->
       Inv (switchColor c) (move_t c m b) /\ undo_t c m (move_t c m b) = b) ->
    forall (k : Z) (p : Process Move),
    exists counts p',
      Forall2 (subtree c b depth) l counts
      /\ for_each
           (perft_body (fun board p0 =>
                          perft (perft_fuel (depth - 1)) (switchColor c) false board
                                (depth - 1) p0)
                       c pm)
           l (k, b, p)
         = Some (fold_left (fun a x => wrap64 (a + x)) counts k, b, p')
      /\ cout p' = cout p ++ (if pm then zip_with out_move l counts else []).
Proof.
  intros Hd. induction l as [|m l IH]; intros Hl k p.
  - exists [], p. simpl. repeat split; [constructor|]. destruct pm; by rewrite app_nil_r.
  - destruct (Hl m) as [HI Hu]; [apply elem_of_cons; by left|].
    destruct (perft_restores Inv trial_undone played_undone
                (perft_fuel (depth - 1)) (depth - 1) (switchColor c) false (move_t c m b) p)
      as (mn & mp & Hrec); [done|unfold perft_fuel; lia|unfold perft_fuel; lia|].
    pose proof (perft_cout_unchanged _ _ _ _ _ _ _ _ _ (or_introl eq_refl) Hrec) as Hcout.
    set (mp1 := if pm then print (out_move m mn) mp else mp).
    destruct (IH (fun m' Hm' => Hl m' (proj2 (elem_of_cons _ _ _) (or_intror Hm')))
                (wrap64 (k + mn)) mp1)
      as (counts & p' & Hsub & Hfe & Ho').
    exists (mn :: counts), p'. split; [|split].
    + constructor; [|done]. intros q.
      destruct (perft_count_independent _ _ false false _ _ _ q _ _ _ Hrec) as (q' & Hq).
      by exists q'.
    + simpl. rewrite Hrec. fold mp1. rewrite Hu. exact Hfe.
    + rewrite Ho'. unfold mp1. destruct pm; simpl.
      * rewrite Hcout. by rewrite <- app_assoc.
      * by rewrite Hcout.
Qed.

(** [perft] at a depth above 1, from a position of the invariant. *)
Lemma perft_divide (c : Color) (pm : bool) (b : Board) (depth : Z) (p : Process Move) :
  Inv c b -> 1 < depth ->
  exists legal counts p',
    generate_moves c [] b p = Some (size legal, legal, b, guarded_init p)
    /\ Forall2 (subtree c b depth) legal counts
    /\ perft (perft_fuel depth) c pm b depth p
       = Some (wrap64 (sum_counts counts), b, p')
    /\ cout p' = cout p ++ (if pm
                            then zip_with out_move legal counts
                                 ++ [out_total (wrap64 (sum_counts counts))]
                            else []).
Proof.
  intros HI Hd.
  destruct (generate_moves_spec c [] b p) as (l & Hl & Hp).
  { rewrite pseudolegal_eq. by apply trial_undone. }
  rewrite pseudolegal_eq in Hp.
  destruct (perft_loop c pm b depth Hd l) with (k := 0) (p := guarded_init p)
    as (counts & p' & Hsub & Hfe & Hout).
  { intros m Hm. rewrite Hp in Hm. apply list_elem_of_filter in Hm as [Hsafe Hm].
    by apply played_undone. }
  exists l, counts, (if pm then print (out_total (wrap64 (sum_counts counts))) p' else p').
  split; [done|]. split; [done|].
  assert (Hfuel : perft_fuel depth = S (perft_fuel (depth - 1))).
  { unfold perft_fuel. lia. }
  assert (Hsum : fold_left (fun a x => wrap64 (a + x)) counts 0 = wrap64 (sum_counts counts)).
  { change 0 with (wrap64 0) at 1. by rewrite fold_wrap64. }
  split.
  - rewrite Hfuel. cbn [perft]. unfold perft_call. rewrite Hl.
    destruct (depth <=? 1) eqn:Hle; [apply Z.leb_le in Hle; lia|].
    rewrite Hfe, Hsum. done.
  - destruct pm; simpl; rewrite Hout, cout_guarded_init; [|done].
    by rewrite <- app_assoc.
Qed.

(** X8.  Above depth 1 the count of [perft] is the sum, modulo 2^64, of the
    counts of the recursive calls made at [depth - 1] for the moves that
    [generate_moves] kept, each from the position after that move, and the
    board is the one of the call. *)
Theorem perft_sums_subtrees (c : Color) (print_moves : bool) (b : Board) (depth : Z)
        (p : Process Move) :
  Inv c b -> 1 < depth ->
  exists legal counts p',
    generate_moves c [] b p = Some (size legal, legal, b, guarded_init p)
    /\ Forall2 (subtree c b depth) legal counts
    /\ perft (perft_fuel depth) c print_moves b depth p
       = Some (wrap64 (sum_counts counts), b, p').
Proof.
  intros HI Hd.
  destruct (perft_divide c print_moves b depth p HI Hd)
    as (legal & counts & p' & Hg & Hsub & Hp & _).
  by exists legal, counts, p'.
Qed.

(** X9.  With [print_moves], above depth 1, [perft] prints one line by legal
    move, in the order of the list, each with the count of that move's
    subtree, and the total last; the recursive calls print nothing. *)
Theorem perft_divide_output (c : Color) (b : Board) (depth : Z) (p : Process Move) :
  Inv c b -> 1 < depth ->
  exists legal counts n p',
    generate_moves c [] b p = Some (size legal, legal, b, guarded_init p)
    /\ Forall2 (subtree c b depth) legal counts
    /\ perft (perft_fuel depth) c true b depth p = Some (n, b, p')
    /\ cout p' = cout p ++ zip_with out_move legal counts ++ [out_total n].
Proof.
  intros HI Hd.
  destruct (perft_divide c true b depth p HI Hd)
    as (legal & counts & p' & Hg & Hsub & Hp & Hout).
  by exists legal, counts, (wrap64 (sum_counts counts)), p'.
Qed.

End PerftDivide.

Section MainExtras.
Context {Board Move : Type} `{BoardApi Board Move} `{FrontEnd Board Move}.

Lemma perftSimpleEntry_process (board : Board) (depth : Z) (p : Process Move) :
  exists n b' p',
    perftSimpleEntry board depth p = Some (n, b', p')
    /\ initialized_stuff p' = true
    /\ init_calls p' = init_calls (guarded_init p).
Proof.
  unfold perftSimpleEntry. apply perft_process; unfold perft_fuel; lia.
Qed.

Lemma perftDetailEntry_process (board : Board) (depth : Z) (p : Process Move) :
  exists n b' p',
    perftDetailEntry board depth p = Some (n, b', p')
    /\ initialized_stuff p' = true
    /\ init_calls p' = init_calls (guarded_init p).
Proof.
  unfold perftDetailEntry. apply perft_process; unfold perft_fuel; lia.
Qed.

Lemma eqb_false_of_neq (s t : string) : s <> t -> String.eqb s t = false.
Proof. intros Hn. by apply String.eqb_neq. Qed.

(** X10.  A command line with an option other than [-test] that is not a
    well-formed [-perft], [-speed] or [-perftd] command (a known option, the
    right number of arguments, a depth that [stoi] reads and a position that
    [Game] accepts) makes [main] print one message and return 0: no move is
    generated, and the flag is as it was. *)
Theorem main_rejects_bad_command_line (args : list string) (p : Process Move) :
  (1 < length args)%nat ->
  arg args 1 <> "-test"%string ->
  ~ ((arg args 1 = "-perft"%string /\ (4 <= length args <= 5)%nat
      \/ (arg args 1 = "-speed"%string \/ arg args 1 = "-perftd"%string)
         /\ length args = 4%nat)
     /\ is_Some (stoi (arg args 2))
     /\ is_Some (Game_fen (arg args 3))) ->
  exists s, main args p = Some (0, print (out_text s) (initializePrecomputedStuff p)).
Proof.
  intros Hlen Htest Hbad. unfold main.
  apply Nat.ltb_lt in Hlen. rewrite Hlen.
  rewrite (eqb_false_of_neq _ _ Htest).
  destruct (String.eqb (arg args 1) "-perft") eqn:Hperft.
  { apply String.eqb_eq in Hperft. unfold perft_test.
    destruct ((length args <? 4) || (5 <? length args))%nat eqn:Hn; [by eexists|].
    apply orb_false_elim in Hn as [H4 H5].
    apply Nat.ltb_ge in H4. apply Nat.ltb_ge in H5.
    destruct (stoi (arg args 2)) as [depth|] eqn:Hd; [|by eexists].
    destruct (Game_fen (arg args 3)) as [board|] eqn:Hf; [|by eexists].
    exfalso. apply Hbad. split; [left; split; [done|lia]|]. split; by eexists. }
  destruct (String.eqb (arg args 1) "-speed") eqn:Hspeed.
  { apply String.eqb_eq in Hspeed. unfold speed_test.
    destruct (length args =? 4)%nat eqn:Hn; [|by eexists]. simpl.
    apply Nat.eqb_eq in Hn.
    destruct (stoi (arg args 2)) as [depth|] eqn:Hd; [|by eexists].
    destruct (Game_fen (arg args 3)) as [board|] eqn:Hf; [|by eexists].
    exfalso. apply Hbad. split; [right; split; [by left|done]|]. split; by eexists. }
  destruct (String.eqb (arg args 1) "-perftd") eqn:Hperftd.
  { apply String.eqb_eq in Hperftd. unfold detailed_perft_test.
    destruct (length args =? 4)%nat eqn:Hn; [|by eexists]. simpl.
    apply Nat.eqb_eq in Hn.
    destruct (stoi (arg args 2)) as [depth|] eqn:Hd; [|by eexists].
    destruct (Game_fen (arg args 3)) as [board|] eqn:Hf; [|by eexists].
    exfalso. apply Hbad. split; [right; split; [by right|done]|]. split; by eexists. }
  by eexists.
Qed.

(** X11.  [perft_test] reads the expected count only after the traversal:
    on five arguments with a depth and a position that are accepted and an
    expected count that [stoull] rejects, the whole traversal is run first
    (so the tables are initialised and the flag is set), and the complaint
    about the expected count is what is printed, in place of a result. *)
Theorem perft_test_reads_expected_last (args : list string) (depth : Z) (board : Board)
        (p : Process Move) :
  length args = 5%nat ->
  stoi (arg args 2) = Some depth ->
  Game_fen (arg args 3) = Some board ->
  stoull (arg args 4) = None ->
  exists n b' p',
    perftSimpleEntry board depth p = Some (n, b', p')
    /\ initialized_stuff p' = true
    /\ perft_test args p = Some (print (out_text "'expected' must be a number!") p').
Proof.
  intros Hlen Hd Hf He.
  destruct (perftSimpleEntry_process board depth p) as (n & b' & p' & Hp & Hi & _).
  exists n, b', p'. split; [done|]. split; [done|].
  unfold perft_test. rewrite Hlen, Hd, Hf, Hp, He. reflexivity.
Qed.

(** X12.  Every run of [main] that starts a traversal by [-perft], with or
    without an expected count, or by [-perftd], returns 0 and has run the
    initialisation twice, whatever the depth, the position and the outcome
    of the comparison. *)
Theorem main_traversal_init_runs (args : list string) (depth : Z) (board : Board) :
  arg args 1 = "-perft"%string /\ (length args = 4%nat \/ length args = 5%nat)
  \/ arg args 1 = "-perftd"%string /\ length args = 4%nat ->
  stoi (arg args 2) = Some depth ->
  Game_fen (arg args 3) = Some board ->
  exists p, main args process_start = Some (0, p) /\ init_runs p = 2%nat.
Proof.
  intros Hcase Hd Hf. unfold main.
  set (p0 := initializePrecomputedStuff process_start).
  assert (Hruns : forall p' : Process Move, init_calls p' = init_calls (guarded_init p0) ->
                             init_runs p' = 2%nat).
  { intros p' Hc. unfold init_runs. rewrite Hc. reflexivity. }
  destruct (perftSimpleEntry_process board depth p0) as (n & b' & p' & Hp & _ & Hc).
  destruct (perftDetailEntry_process board depth p0) as (n2 & b2 & p2 & Hp2 & _ & Hc2).
  destruct Hcase as [[Ha Hlen]|[Ha Hlen]]; rewrite Ha; simpl.
  - unfold perft_test. rewrite Hd, Hf, Hp.
    destruct Hlen as [-> | ->]; simpl.
    + eexists. split; [reflexivity|]. rewrite init_runs_print. by apply Hruns.
    + destruct (stoull (arg args 4)) as [expected|].
      * destruct (n =? expected); eexists; (split; [reflexivity|]);
          rewrite !init_runs_print; by apply Hruns.
      * eexists. split; [reflexivity|]. rewrite init_runs_print. by apply Hruns.
  - unfold detailed_perft_test. rewrite Hlen, Hd, Hf, Hp2. simpl.
    eexists. split; [reflexivity|]. by apply Hruns.
Qed.

(** X13.  With a test suite and a command loop that return, [main] returns
    on every command line whose option is not [-speed], and the status is 0
    on every path: a rejected command line, a failed comparison with the
    expected count and a completed traversal are not told apart by it.
    ([-speed] divides by a clock reading that is not modelled.) *)
Theorem main_returns_zero (args : list string) (p : Process Move) :
  arg args 1 <> "-speed"%string ->
  exists p', main args p = Some (0, p').
Proof.
  intros Hspeed. unfold main. set (p0 := initializePrecomputedStuff p).
  destruct (1 <? length args)%nat; [|by eexists].
  destruct (String.eqb (arg args 1) "-test"); [by eexists|].
  destruct (String.eqb (arg args 1) "-perft").
  { unfold perft_test.
    destruct ((length args <? 4) || (5 <? length args))%nat; [by eexists|].
    destruct (stoi (arg args 2)) as [depth|]; [|by eexists].
    destruct (Game_fen (arg args 3)) as [board|]; [|by eexists].
    destruct (perftSimpleEntry_process board depth p0) as (n & b' & p' & -> & _).
    destruct (length args =? 4)%nat; [by eexists|].
    destruct (stoull (arg args 4)) as [expected|]; [|by eexists].
    destruct (n =? expected); by eexists. }
  rewrite (eqb_false_of_neq _ _ Hspeed).
  destruct (String.eqb (arg args 1) "-perftd"); [|by eexists].
  unfold detailed_perft_test.
  destruct (negb (length args =? 4)%nat); [by eexists|].
  destruct (stoi (arg args 2)) as [depth|]; [|by eexists].
  destruct (Game_fen (arg args 3)) as [board|]; [|by eexists].
  destruct (perftDetailEntry_process board depth p0) as (n & b' & p' & -> & _).
  by eexists.
Qed.

End MainExtras.

Module ChessExtras.
Import Chess ChessFacts.

#[local] Existing Instance fixed_keys.
#[local] Existing Instance front_end.

(** *** The further theorems at the starting position *)

Lemma perft_no_king_witness :
  getKing startpos_without_white_king white = 0
  /\ exists p', perft 3 white true startpos_without_white_king 5 process_start
                = Some (0, startpos_without_white_king, p').
Proof.
  split; [reflexivity|].
  exact (perft_no_king white true startpos_without_white_king 5 process_start 2 eq_refl).
Defined.

Lemma perft_leaf_counts_legal_witness :
  ((forall m, m ∈ pseudolegal white startpos -> undo m (move m startpos) = startpos)
   /\ 1 <= 1)
  /\ perft 1 white false startpos 1 process_start
     = Some (Z.of_nat (length (filter (fun m => leaves_in_check white startpos m = false)
                                      (pseudolegal white startpos))),
             startpos, guarded_init process_start).
Proof.
  assert (forall m, m ∈ pseudolegal white startpos ->
                    undo m (move m startpos) = startpos) as Hundo.
  { apply chess_trial_undone. split; [exact startpos_ok|reflexivity]. }
  split; [split; [exact Hundo|lia]|].
  apply (perft_leaf_counts_legal white false startpos 1 process_start 0 Hundo). lia.
Defined.

Lemma perft_silent_witness :
  (false = false \/ 3 <= 1)
  /\ exists n b' p',
      perft (perft_fuel 3) white false startpos 3 process_start = Some (n, b', p')
      /\ cout p' = cout (process_start (Move := Move)).
Proof.
  split; [by left|].
  apply (perft_silent white false startpos 3 process_start). by left.
Defined.

Lemma perft_below_one_as_one_witness :
  0 <= 1
  /\ perft (perft_fuel 0) white true startpos 0 process_start
     = perft (perft_fuel 1) white false startpos 1 process_start.
Proof.
  split; [lia|].
  apply (perft_below_one_as_one white true startpos 0 process_start). lia.
Defined.

Lemma perft_sums_subtrees_witness :
  ((board_ok startpos = true /\ white = side startpos) /\ 1 < 3)
  /\ exists legal counts p',
      generate_moves white [] startpos process_start
      = Some (size legal, legal, startpos, guarded_init process_start)
      /\ Forall2 (subtree white startpos 3) legal counts
      /\ perft (perft_fuel 3) white false startpos 3 process_start
         = Some (wrap64 (sum_counts counts), startpos, p').
Proof.
  assert (board_ok startpos = true /\ white = side startpos) as Hok.
  { split; [exact startpos_ok|reflexivity]. }
  split; [split; [exact Hok|lia]|].
  apply (perft_sums_subtrees (fun c b => board_ok b = true /\ c = side b)
                             chess_trial_undone chess_played_undone
                             white false startpos 3 process_start Hok). lia.
Defined.

Lemma perft_divide_output_witness :
  ((board_ok startpos = true /\ white = side startpos) /\ 1 < 2)
  /\ exists legal counts n p',
      generate_moves white [] startpos process_start
      = Some (size legal, legal, startpos, guarded_init process_start)
      /\ Forall2 (subtree white startpos 2) legal counts
      /\ perft (perft_fuel 2) white true startpos 2 process_start = Some (n, startpos, p')
      /\ cout p' = cout (process_start (Move := Move))
                   ++ zip_with out_move legal counts ++ [out_total n].
Proof.
  assert (board_ok startpos = true /\ white = side startpos) as Hok.
  { split; [exact startpos_ok|reflexivity]. }
  split; [split; [exact Hok|lia]|].
  apply (perft_divide_output (fun c b => board_ok b = true /\ c = side b)
                             chess_trial_undone chess_played_undone
                             white startpos 2 process_start Hok). lia.
Defined.

(** *** The theorems about [main] at command lines *)

Lemma main_rejects_bad_command_line_witness :
  ((1 < length ["slou"; "-perft"; "x"; "startpos"]%string)%nat
   /\ arg ["slou"; "-perft"; "x"; "startpos"]%string 1 <> "-test"%string
   /\ ~ ((arg ["slou"; "-perft"; "x"; "startpos"]%string 1 = "-perft"%string
          /\ (4 <= length ["slou"; "-perft"; "x"; "startpos"]%string <= 5)%nat
          \/ (arg ["slou"; "-perft"; "x"; "startpos"]%string 1 = "-speed"%string
              \/ arg ["slou"; "-perft"; "x"; "startpos"]%string 1 = "-perftd"%string)
             /\ length ["slou"; "-perft"; "x"; "startpos"]%string = 4%nat)
         /\ is_Some (stoi (arg ["slou"; "-perft"; "x"; "startpos"]%string 2))
         /\ is_Some (Game_fen (arg ["slou"; "-perft"; "x"; "startpos"]%string 3))))
  /\ exists s, main ["slou"; "-perft"; "x"; "startpos"]%string process_start
               = Some (0, print (out_text s) (initializePrecomputedStuff process_start)).
Proof.
  assert ((1 < length ["slou"; "-perft"; "x"; "startpos"]%string)%nat) as H1
      by (simpl; lia).
  assert (arg ["slou"; "-perft"; "x"; "startpos"]%string 1 <> "-test"%string) as H2
      by discriminate.
  assert (~ ((arg ["slou"; "-perft"; "x"; "startpos"]%string 1 = "-perft"%string
              /\ (4 <= length ["slou"; "-perft"; "x"; "startpos"]%string <= 5)%nat
              \/ (arg ["slou"; "-perft"; "x"; "startpos"]%string 1 = "-speed"%string
                  \/ arg ["slou"; "-perft"; "x"; "startpos"]%string 1 = "-perftd"%string)
                 /\ length ["slou"; "-perft"; "x"; "startpos"]%string = 4%nat)
             /\ is_Some (stoi (arg ["slou"; "-perft"; "x"; "startpos"]%string 2))
             /\ is_Some (Game_fen (arg ["slou"; "-perft"; "x"; "startpos"]%string 3))))
    as H3.
  { intros (_ & [d Hd] & _). vm_compute in Hd. discriminate. }
  split; [split; [exact H1|split; [exact H2|exact H3]]|].
  exact (main_rejects_bad_command_line ["slou"; "-perft"; "x"; "startpos"]%string
                                       process_start H1 H2 H3).
Defined.

Lemma perft_test_reads_expected_last_witness :
  (length ["slou"; "-perft"; "1"; "startpos"; "x"]%string = 5%nat
   /\ stoi (arg ["slou"; "-perft"; "1"; "startpos"; "x"]%string 2) = Some 1
   /\ Game_fen (arg ["slou"; "-perft"; "1"; "startpos"; "x"]%string 3) = Some startpos
   /\ stoull (arg ["slou"; "-perft"; "1"; "startpos"; "x"]%string 4) = None)
  /\ exists n b' p',
      perftSimpleEntry startpos 1 process_start = Some (n, b', p')
      /\ initialized_stuff p' = true
      /\ perft_test ["slou"; "-perft"; "1"; "startpos"; "x"]%string process_start
         = Some (print (out_text "'expected' must be a number!") p').
Proof.
  split; [repeat split; reflexivity|].
  exact (perft_test_reads_expected_last ["slou"; "-perft"; "1"; "startpos"; "x"]%string
                                        1 startpos process_start
                                        eq_refl eq_refl eq_refl eq_refl).
Defined.

Lemma main_traversal_init_runs_witness :
  ((arg ["slou"; "-perftd"; "2"; "startpos"]%string 1 = "-perft"%string
    /\ (length ["slou"; "-perftd"; "2"; "startpos"]%string = 4%nat
        \/ length ["slou"; "-perftd"; "2"; "startpos"]%string = 5%nat)
    \/ arg ["slou"; "-perftd"; "2"; "startpos"]%string 1 = "-perftd"%string
       /\ length ["slou"; "-perftd"; "2"; "startpos"]%string = 4%nat)
   /\ stoi (arg ["slou"; "-perftd"; "2"; "startpos"]%string 2) = Some 2
   /\ Game_fen (arg ["slou"; "-perftd"; "2"; "startpos"]%string 3) = Some startpos)
  /\ exists p, main ["slou"; "-perftd"; "2"; "startpos"]%string process_start = Some (0, p)
               /\ init_runs p = 2%nat.
Proof.
  assert (arg ["slou"; "-perftd"; "2"; "startpos"]%string 1 = "-perft"%string
          /\ (length ["slou"; "-perftd"; "2"; "startpos"]%string = 4%nat
              \/ length ["slou"; "-perftd"; "2"; "startpos"]%string = 5%nat)
          \/ arg ["slou"; "-perftd"; "2"; "startpos"]%string 1 = "-perftd"%string
             /\ length ["slou"; "-perftd"; "2"; "startpos"]%string = 4%nat) as H1.
  { right. split; reflexivity. }
  split; [split; [exact H1|split; reflexivity]|].
  exact (main_traversal_init_runs ["slou"; "-perftd"; "2"; "startpos"]%string 2 startpos
                                  H1 eq_refl eq_refl).
Defined.

Lemma main_returns_zero_witness :
  arg ["slou"; "-perft"; "1"; "startpos"; "21"]%string 1 <> "-speed"%string
  /\ exists p', main ["slou"; "-perft"; "1"; "startpos"; "21"]%string process_start
                = Some (0, p').
Proof.
  assert (arg ["slou"; "-perft"; "1"; "startpos"; "21"]%string 1 <> "-speed"%string) as H1
      by discriminate.
  split; [exact H1|].
  exact (main_returns_zero ["slou"; "-perft"; "1"; "startpos"; "21"]%string process_start H1).
Defined.

End ChessExtras.
